(** * bee: a bounded-concurrency task pool (bee.go)

    A shallow embedding of [Pool] and its operations as an interleaving
    transition system.  Every atomic action of the Go source (one channel
    operation, one atomic counter update, one [sync.Once] call) is one
    transition; the scheduler is the list of events that is run.  *)

From stdpp Require Import base numbers list.
From Stdlib Require Import ZArith Lia.

Open Scope Z_scope.

(** ** Go runtime primitives used by bee.go *)

(** [atomic.Int32] and [atomic.Int64]: two's-complement cells, [Add] wraps. *)
Module Atomic.

Definition wrap (w z : Z) : Z := (z + 2 ^ (w - 1)) mod 2 ^ w - 2 ^ (w - 1).

Definition max_int32 : Z := 2 ^ 31 - 1.
Definition max_int64 : Z := 2 ^ 63 - 1.

Definition Int32_Add (v delta : Z) : Z := wrap 32 (v + delta).
Definition Int64_Add (v delta : Z) : Z := wrap 64 (v + delta).

End Atomic.

(** Channels of [struct{}]: only the number of buffered elements matters. *)
Module Chan.

Record t := mk { cap : Z; len : Z; closed : bool }.

(** [make(chan struct{}, n)]: a run-time panic when [n] is negative
    (runtime.makechan, "makechan: size out of range"); the element type has
    size zero, so no other size is refused. *)
Definition make (n : Z) : option t :=
  if n <? 0 then None else Some (mk n 0 false).

(** [close(c)]: a run-time panic when [c] is already closed. *)
Definition close (c : t) : option t :=
  if closed c then None else Some (mk (cap c) (len c) true).

(** A receive from a closed channel can always proceed. *)
Definition recv_closed_ready (c : t) : bool := closed c.

(** A send into the buffer can proceed when there is room. *)
Definition send_buffer_ready (c : t) : bool := len c <? cap c.

(** A receive from the buffer can proceed when it holds an element. *)
Definition recv_buffer_ready (c : t) : bool := 0 <? len c.

Definition push (c : t) : t := mk (cap c) (len c + 1) (closed c).
Definition pop (c : t) : t := mk (cap c) (len c - 1) (closed c).

End Chan.

(** [recover()]: stops a panic only when it is called directly by a deferred
    function; otherwise it returns nil and the panic goes on (Go spec,
    "Handling panics").  The result is whether the goroutine still panics. *)
Definition recover (called_by_deferred_function panicking : bool) : bool :=
  if called_by_deferred_function then false else panicking.

(** ** The data model *)

(** A [context.Context] is a handle; whether it has fired is a fact of the
    environment, kept in the state as the list of fired handles. *)
Definition Ctx : Type := nat.

Record Pool := mkPool {
  ctx : Ctx;
  work : Chan.t;
  done : Chan.t;
  closeDone : bool;      (* the [sync.OnceFunc]: has it run already *)
  running : Z;           (* atomic.Int32 *)
  worked : Z;            (* atomic.Int64 *)
  index : Z              (* atomic.Int64 *)
}.

(** [New]: [None] is the panic of [make] on a negative size. *)
Definition New (c : Ctx) (size : Z) : option Pool :=
  let done := Chan.mk 0 0 false in
  match Chan.make size with
  | None => None
  | Some w => Some (mkPool c w done false 0 0 0)
  end.

(** The three entry points differ in what the user's function receives. *)
Inductive entry := Run | RunWithContext | RunWithContextAndIndex.

(** What the user's function is given, from the arguments [(ctx, index)] of
    the closure that [RunWithContextAndIndex] runs. *)
Definition user_args (e : entry) (c : Ctx) (i : Z) : option Ctx * option Z :=
  match e with
  | Run => (None, None)
  | RunWithContext => (Some c, None)
  | RunWithContextAndIndex => (Some c, Some i)
  end.

(** A task body is opaque; what matters to the pool is whether it panics. *)
Record Fn := mkFn { fn_entry : entry; fn_panics : bool }.

(** The cases of the [select] in [RunWithContextAndIndex]. *)
Inductive select_case := CaseCtxDone | CaseDone | CaseSend.

(** Program points of one call of [RunWithContextAndIndex]. *)
Inductive call_pc :=
| CSelect                (* at the select *)
| CCloseDone             (* case <-p.ctx.Done() taken, before p.closeDone() *)
| CAdd                   (* case p.work <- taken, before p.running.Add(1) *)
| CGo                    (* before the go statement *)
| CRet (b : bool).       (* returned b *)

Record Call := mkCall { c_fn : Fn; c_pc : call_pc }.

(** Program points of one goroutine started by the go statement. *)
Inductive task_pc :=
| TStart                 (* started; arguments of f not yet evaluated *)
| TBody                  (* inside f *)
| TRecover               (* f left; the deferred recover() is next *)
| TRecv                  (* in the deferred closure, before <-p.work *)
| TAddRunning            (* before p.running.Add(-1) *)
| TAddWorked             (* before p.worked.Add(1) *)
| TExit                  (* the deferred closure returned *)
| TDone.                 (* the goroutine ended without a panic *)

Record Task := mkTask {
  t_call : nat;                   (* the call that started it *)
  t_fn : Fn;
  t_pc : task_pc;
  t_args : option (Ctx * Z);      (* what f was called with *)
  t_panicking : bool
}.

Record State := mkState {
  pool : Pool;
  fired : list Ctx;        (* the contexts that have been cancelled *)
  calls : list Call;       (* in the order the calls were made *)
  tasks : list Task;       (* in the order of the go statements *)
  crashed : bool;          (* the process died of an unrecovered panic *)
  closes : nat             (* how many times close(done) was executed *)
}.

Definition init (p : Pool) : State := mkState p [] [] [] false 0%nat.

Definition ctx_fired (s : State) (c : Ctx) : bool := bool_decide (c ∈ fired s).

(** ** The operations *)

Definition set_pool (s : State) (p : Pool) : State :=
  mkState p (fired s) (calls s) (tasks s) (crashed s) (closes s).

Definition set_call (s : State) (i : nat) (c : Call) : State :=
  mkState (pool s) (fired s) (<[i := c]> (calls s)) (tasks s) (crashed s) (closes s).

Definition set_task (s : State) (i : nat) (t : Task) : State :=
  mkState (pool s) (fired s) (calls s) (<[i := t]> (tasks s)) (crashed s) (closes s).

Definition at_pc (c : Call) (pc : call_pc) : Call := mkCall (c_fn c) pc.

Definition task_at (t : Task) (pc : task_pc) : Task :=
  mkTask (t_call t) (t_fn t) pc (t_args t) (t_panicking t).

Definition set_work (p : Pool) (w : Chan.t) : Pool :=
  mkPool (ctx p) w (done p) (closeDone p) (running p) (worked p) (index p).

(** [p.closeDone()]: the function given to [sync.OnceFunc] runs on the first
    call only.  A panic of [close] would end the process. *)
Definition call_closeDone (s : State) : State :=
  let p := pool s in
  if closeDone p then s
  else match Chan.close (done p) with
       | None =>
           mkState (mkPool (ctx p) (work p) (done p) true (running p) (worked p) (index p))
                   (fired s) (calls s) (tasks s) true (closes s)
       | Some d =>
           mkState (mkPool (ctx p) (work p) d true (running p) (worked p) (index p))
                   (fired s) (calls s) (tasks s) (crashed s) (S (closes s))
       end.

(** [Exit]. *)
Definition Exit (s : State) : State := call_closeDone s.

(** [Worked] and [Running]. *)
Definition Worked (s : State) : Z := worked (pool s).
Definition Running (s : State) : Z := running (pool s).

(** Which cases of the select can proceed on their own.  The send case can
    also proceed by handing the element to a goroutine blocked in
    [<-p.work]; that is the transition [EvHandoff] below. *)
Definition select_ready (s : State) (k : select_case) : bool :=
  match k with
  | CaseCtxDone => ctx_fired s (ctx (pool s))
  | CaseDone => Chan.recv_closed_ready (done (pool s))
  | CaseSend => Chan.send_buffer_ready (work (pool s))
  end.

Definition select_target (k : select_case) : call_pc :=
  match k with
  | CaseCtxDone => CCloseDone
  | CaseDone => CRet false
  | CaseSend => CAdd
  end.

Definition select_effect (s : State) (k : select_case) : State :=
  match k with
  | CaseSend => set_pool s (set_work (pool s) (Chan.push (work (pool s))))
  | _ => s
  end.

(** The statements of a call after its select. *)
Definition call_next (s : State) (i : nat) (c : Call) : option State :=
  let p := pool s in
  match c_pc c with
  | CSelect => None
  | CCloseDone => Some (set_call (call_closeDone s) i (at_pc c (CRet false)))
  | CAdd =>
      Some (set_call
              (set_pool s (mkPool (ctx p) (work p) (done p) (closeDone p)
                                  (Atomic.Int32_Add (running p) 1) (worked p) (index p)))
              i (at_pc c CGo))
  | CGo =>
      Some (mkState p (fired s) (<[i := at_pc c (CRet true)]> (calls s))
                    (tasks s ++ [mkTask i (c_fn c) TStart None false])
                    (crashed s) (closes s))
  | CRet _ => None
  end.

(** The statements of a goroutine. *)
Definition task_next (s : State) (i : nat) (t : Task) : option State :=
  let p := pool s in
  match t_pc t with
  | TStart =>
      let n := Atomic.Int64_Add (index p) 1 in
      Some (set_task
              (set_pool s (mkPool (ctx p) (work p) (done p) (closeDone p)
                                  (running p) (worked p) n))
              i (mkTask (t_call t) (t_fn t) TBody (Some (ctx p, n)) false))
  | TBody =>
      Some (set_task s i (mkTask (t_call t) (t_fn t) TRecover (t_args t)
                                 (fn_panics (t_fn t))))
  | TRecover =>
      Some (set_task s i (mkTask (t_call t) (t_fn t) TRecv (t_args t)
                                 (recover false (t_panicking t))))
  | TRecv =>
      if Chan.recv_buffer_ready (work p)
      then Some (set_task (set_pool s (set_work p (Chan.pop (work p)))) i
                          (task_at t TAddRunning))
      else None
  | TAddRunning =>
      Some (set_task
              (set_pool s (mkPool (ctx p) (work p) (done p) (closeDone p)
                                  (Atomic.Int32_Add (running p) (-1)) (worked p) (index p)))
              i (task_at t TAddWorked))
  | TAddWorked =>
      Some (set_task
              (set_pool s (mkPool (ctx p) (work p) (done p) (closeDone p)
                                  (running p) (Atomic.Int64_Add (worked p) 1) (index p)))
              i (task_at t TExit))
  | TExit =>
      if t_panicking t
      then Some (mkState p (fired s) (calls s) (tasks s) true (closes s))
      else Some (set_task s i (task_at t TDone))
  | TDone => None
  end.

(** What the environment and the scheduler can do. *)
Inductive event :=
| EvCancel (c : Ctx)                  (* the environment cancels context c *)
| EvCall (f : Fn)                     (* a client calls a Run function *)
| EvSelect (i : nat) (k : select_case)  (* the select of call i takes case k *)
| EvHandoff (i j : nat)               (* call i sends to goroutine j waiting in <-p.work *)
| EvCaller (i : nat)                  (* call i runs its next statement *)
| EvTask (j : nat)                    (* goroutine j runs its next statement *)
| EvExit.                             (* a client calls Exit *)

(** One transition; [None] when the event cannot happen in this state (the
    thread is blocked, has ended, or the process is dead). *)
Definition step (e : event) (s : State) : option State :=
  if crashed s then None else
  match e with
  | EvCancel c =>
      Some (mkState (pool s) (c :: fired s) (calls s) (tasks s) (crashed s) (closes s))
  | EvCall f =>
      Some (mkState (pool s) (fired s) (calls s ++ [mkCall f CSelect]) (tasks s)
                    (crashed s) (closes s))
  | EvSelect i k =>
      match calls s !! i with
      | Some c =>
          match c_pc c with
          | CSelect =>
              if select_ready s k
              then Some (set_call (select_effect s k) i (at_pc c (select_target k)))
              else None
          | _ => None
          end
      | None => None
      end
  | EvHandoff i j =>
      match calls s !! i, tasks s !! j with
      | Some c, Some t =>
          match c_pc c, t_pc t with
          | CSelect, TRecv =>
              if Chan.recv_buffer_ready (work (pool s)) then None
              else Some (set_task (set_call s i (at_pc c CAdd)) j (task_at t TAddRunning))
          | _, _ => None
          end
      | _, _ => None
      end
  | EvCaller i =>
      match calls s !! i with
      | Some c => call_next s i c
      | None => None
      end
  | EvTask j =>
      match tasks s !! j with
      | Some t => task_next s j t
      | None => None
      end
  | EvExit => Some (Exit s)
  end.

Fixpoint run (es : list event) (s : State) : option State :=
  match es with
  | [] => Some s
  | e :: es' =>
      match step e s with
      | Some s' => run es' s'
      | None => None
      end
  end.

(** The states a pool made by [New c size] can be in. *)
Definition reachable (c : Ctx) (size : Z) (s : State) : Prop :=
  ∃ p es, New c size = Some p ∧ run es (init p) = Some s.

(** ** Counting threads by program point *)

Fixpoint count {A : Type} (p : A → bool) (l : list A) : Z :=
  match l with
  | [] => 0
  | x :: l' => (if p x then 1 else 0) + count p l'
  end.

(** A call holds a slot of [work] from its send until its goroutine starts. *)
Definition call_holds (c : Call) : bool :=
  match c_pc c with CAdd | CGo => true | _ => false end.

(** A call is counted in [running] from its Add(1) until its goroutine starts. *)
Definition call_counted (c : Call) : bool :=
  match c_pc c with CGo => true | _ => false end.

Definition call_accepted (c : Call) : bool :=
  match c_pc c with CRet true => true | _ => false end.

(** A call that got past the send case of its select. *)
Definition call_admitted (c : Call) : bool :=
  match c_pc c with CAdd | CGo | CRet true => true | _ => false end.

(** A goroutine holds its slot until its [<-p.work]. *)
Definition task_holds (t : Task) : bool :=
  match t_pc t with TStart | TBody | TRecover | TRecv => true | _ => false end.

(** A goroutine is counted in [running] until its Add(-1). *)
Definition task_counted (t : Task) : bool :=
  match t_pc t with
  | TStart | TBody | TRecover | TRecv | TAddRunning => true
  | _ => false
  end.

(** The slot is released and [running] not yet decremented. *)
Definition task_released (t : Task) : bool :=
  match t_pc t with TAddRunning => true | _ => false end.

(** The goroutine has taken its index. *)
Definition task_started (t : Task) : bool :=
  match t_pc t with TStart => false | _ => true end.

(** The goroutine has executed its [worked.Add(1)]. *)
Definition task_finished (t : Task) : bool :=
  match t_pc t with TExit | TDone => true | _ => false end.

(** The index a goroutine passed to its function, if it has one yet. *)
Definition task_index (t : Task) : option Z := snd <$> t_args t.

(** What each goroutine carries, by program point. *)
Definition task_ok (c : Ctx) (t : Task) : Prop :=
  match t_pc t with
  | TStart => t_args t = None
  | TBody => ∃ i, t_args t = Some (c, i)
  | _ => (∃ i, t_args t = Some (c, i)) ∧ t_panicking t = fn_panics (t_fn t)
  end.

(** The invariant of the pool: every counter is the number of threads in
    the matching range of program points. *)
Record Inv (c : Ctx) (size : Z) (s : State) : Prop := mkInv {
  inv_ctx : ctx (pool s) = c;
  inv_cap : Chan.cap (work (pool s)) = size;
  inv_size : 0 ≤ size;
  inv_len : Chan.len (work (pool s))
            = count call_holds (calls s) + count task_holds (tasks s);
  inv_len_cap : Chan.len (work (pool s)) ≤ size;
  inv_running : running (pool s)
                = Atomic.wrap 32 (count call_counted (calls s)
                                  + count task_counted (tasks s));
  inv_worked : worked (pool s) = Atomic.wrap 64 (count task_finished (tasks s));
  inv_index : index (pool s) = Atomic.wrap 64 (count task_started (tasks s));
  inv_accepted : Z.of_nat (length (tasks s)) = count call_accepted (calls s);
  inv_once : closeDone (pool s) = Chan.closed (done (pool s));
  inv_closes : closes s = if Chan.closed (done (pool s)) then 1%nat else 0%nat;
  inv_tasks : Forall (task_ok c) (tasks s)
}.

(** The indices handed out so far are distinct and are among 1, ..., the
    number of goroutines that have taken one.  It holds as long as the
    index cell has not overflowed. *)
Definition idx_ok (l : list Task) : Prop :=
  (∀ j t i, l !! j = Some t → task_index t = Some i →
     1 ≤ i ≤ count task_started l)
  ∧ (∀ j1 j2 t1 t2 i, l !! j1 = Some t1 → l !! j2 = Some t2 →
       task_index t1 = Some i → task_index t2 = Some i → j1 = j2).

(** ** Further program-point predicates *)

(** The goroutine is inside the function it was given. *)
Definition task_in_body (t : Task) : bool :=
  match t_pc t with TBody => true | _ => false end.




(** Why a call is where it is: the cancellation case needs the context of
    the pool fired, a false result needs [done] closed. *)
Definition call_explained (s : State) (call : Call) : Prop :=
  match c_pc call with
  | CCloseDone => ctx_fired s (ctx (pool s)) = true
  | CRet false => Chan.closed (done (pool s)) = true
  | _ => True
  end.

(** ** Changing the entry point of calls *)






(** How many statements a goroutine has left at a program point. *)
Definition steps_left (pc : task_pc) : nat :=
  match pc with
  | TStart => 7 | TBody => 6 | TRecover => 5 | TRecv => 4
  | TAddRunning => 3 | TAddWorked => 2 | TExit => 1 | TDone => 0
  end%nat.


(** ** Schedules used in the examples *)

(** A run from [New]. *)
Definition run_from (c : Ctx) (size : Z) (es : list event) : option State :=
  New c size ≫= λ p, run es (init p).

(** One call that takes the send case and starts its goroutine:
    call [i] is made, its select sends, it adds to [running], it runs [go]
    and returns true. *)
Definition submit (i : nat) (f : Fn) : list event :=
  [EvCall f; EvSelect i CaseSend; EvCaller i; EvCaller i].

(** Goroutine [j] runs from its start to its last statement: 7 steps. *)
Definition finish (j : nat) : list event := replicate 7 (EvTask j).

Definition quiet : Fn := mkFn Run false.
Definition faulty : Fn := mkFn Run true.
Definition indexed : Fn := mkFn RunWithContextAndIndex false.

(** The claim as the specification words it: a goroutine started by an
    earlier go statement has the smaller index. *)
Definition indices_follow_dispatch (s : State) : Prop :=
  ∀ j1 j2 t1 t2 i1 i2,
    tasks s !! j1 = Some t1 → tasks s !! j2 = Some t2 →
    task_index t1 = Some i1 → task_index t2 = Some i2 →
    (j1 < j2)%nat → i1 < i2.

Definition five_reversed : list event :=
  submit 0 indexed ++ submit 1 indexed ++ submit 2 indexed
  ++ submit 3 indexed ++ submit 4 indexed
  ++ [EvTask 4; EvTask 3; EvTask 2; EvTask 1; EvTask 0].

Definition five_in_order : list event :=
  submit 0 indexed ++ [EvTask 0] ++ submit 1 indexed ++ [EvTask 1]
  ++ submit 2 indexed ++ [EvTask 2] ++ submit 3 indexed ++ [EvTask 3]
  ++ submit 4 indexed ++ [EvTask 4].

Definition overshoot : list event :=
  submit 0 quiet ++ replicate 4 (EvTask 0)
  ++ [EvCall quiet; EvSelect 1 CaseSend; EvCaller 1].

Definition cancelled_then_called : list event := [EvCancel 0%nat; EvCall quiet].

Definition three_tasks : list event :=
  submit 0 quiet ++ submit 1 faulty ++ submit 2 quiet
  ++ finish 0 ++ finish 2 ++ finish 1.


Definition full_then_call : list event := submit 0 quiet ++ [EvCall quiet].

(** ** Arithmetic of the wrapping cells *)

Lemma wrap_add_l (w a b : Z) : 0 < w →
  Atomic.wrap w (Atomic.wrap w a + b) = Atomic.wrap w (a + b).
Proof.
  intros Hw. unfold Atomic.wrap.
  assert (Hm : 0 < 2 ^ w) by (apply Z.pow_pos_nonneg; lia).
  f_equal.
  replace ((a + 2 ^ (w - 1)) mod 2 ^ w - 2 ^ (w - 1) + b + 2 ^ (w - 1))
    with ((a + 2 ^ (w - 1)) mod 2 ^ w + b) by lia.
  rewrite Zplus_mod_idemp_l. f_equal. lia.
Qed.

Lemma wrap32_small (z : Z) : - 2 ^ 31 ≤ z ≤ Atomic.max_int32 → Atomic.wrap 32 z = z.
Proof.
  unfold Atomic.wrap, Atomic.max_int32. intros H.
  change (32 - 1) with 31.
  rewrite Z.mod_small; [lia|].
  change (2 ^ 32) with (2 * 2 ^ 31). lia.
Qed.

Lemma wrap64_small (z : Z) : - 2 ^ 63 ≤ z ≤ Atomic.max_int64 → Atomic.wrap 64 z = z.
Proof.
  unfold Atomic.wrap, Atomic.max_int64. intros H.
  change (64 - 1) with 63.
  rewrite Z.mod_small; [lia|].
  change (2 ^ 64) with (2 * 2 ^ 63). lia.
Qed.

(** ** Counting lemmas *)

Section Count.
Context {A : Type} (p : A → bool).

Lemma count_nonneg (l : list A) : 0 ≤ count p l.
Proof. induction l as [|x l IH]; simpl; [lia|]. destruct (p x); lia. Qed.

Lemma count_le_length (l : list A) : count p l ≤ Z.of_nat (length l).
Proof. induction l as [|x l IH]; simpl; [lia|]. destruct (p x); lia. Qed.

Lemma count_app (l1 l2 : list A) : count p (l1 ++ l2) = count p l1 + count p l2.
Proof. induction l1 as [|x l1 IH]; simpl; [lia|]. rewrite IH. lia. Qed.

Lemma count_insert (l : list A) (i : nat) (x y : A) :
  l !! i = Some y →
  count p (<[i := x]> l)
  = count p l - (if p y then 1 else 0) + (if p x then 1 else 0).
Proof.
  revert i. induction l as [|z l IH]; intros [|i] H; simpl in *; try discriminate.
  - injection H as ->. lia.
  - rewrite (IH i H). lia.
Qed.

Lemma count_lookup_pos (l : list A) (i : nat) (y : A) :
  l !! i = Some y → p y = true → 1 ≤ count p l.
Proof.
  revert i. induction l as [|z l IH]; intros [|i] H Hy; simpl in *; try discriminate.
  - injection H as ->. rewrite Hy. pose proof (count_nonneg l). lia.
  - specialize (IH i H Hy). destruct (p z); lia.
Qed.

Lemma count_all (l : list A) :
  Forall (λ x, p x = true) l → count p l = Z.of_nat (length l).
Proof.
  induction 1 as [|x l Hx _ IH]; simpl; [reflexivity|]. rewrite Hx, IH. lia.
Qed.

Lemma count_none (l : list A) :
  Forall (λ x, p x = false) l → count p l = 0.
Proof.
  induction 1 as [|x l Hx _ IH]; simpl; [reflexivity|]. rewrite Hx, IH. lia.
Qed.

End Count.

Lemma count_le {A : Type} (p q : A → bool) (l : list A) :
  (∀ x, p x = true → q x = true) → count p l ≤ count q l.
Proof.
  intros H. induction l as [|x l IH]; simpl; [lia|].
  specialize (H x). destruct (p x), (q x); try lia.
Qed.

Lemma count_split {A : Type} (p q r : A → bool) (l : list A) :
  (∀ x, (if r x then 1 else 0) = (if p x then 1 else 0) + (if q x then 1 else 0)) →
  count r l = count p l + count q l.
Proof.
  intros H. induction l as [|x l IH]; simpl; [reflexivity|].
  rewrite IH, (H x). lia.
Qed.

Lemma count_lt {A : Type} (p q : A → bool) (l : list A) (i : nat) (y : A) :
  (∀ x, p x = true → q x = true) →
  l !! i = Some y → p y = false → q y = true → count p l + 1 ≤ count q l.
Proof.
  intros Hpq. revert i. induction l as [|x l IH]; intros [|i] Hi Hp Hq;
    simpl in *; try discriminate.
  - injection Hi as ->. rewrite Hp, Hq. pose proof (count_le p q l Hpq). lia.
  - specialize (IH i Hi Hp Hq). specialize (Hpq x).
    destruct (p x), (q x); try lia.
Qed.

Lemma count_lookup_lt {A : Type} (p : A → bool) (l : list A) (i : nat) (y : A) :
  l !! i = Some y → p y = false → count p l + 1 ≤ Z.of_nat (length l).
Proof.
  intros Hi Hp.
  pose proof (count_lt p (λ _, true) l i y (λ _ _, eq_refl) Hi Hp eq_refl) as H.
  rewrite (count_all (λ _, true) l) in H; [exact H|].
  apply Forall_forall. reflexivity.
Qed.

(** ** Runs *)

Lemma run_app (es1 es2 : list event) (s : State) :
  run (es1 ++ es2) s = run es1 s ≫= run es2.
Proof.
  revert s. induction es1 as [|e es1 IH]; intros s; simpl; [reflexivity|].
  destruct (step e s); simpl; [apply IH | reflexivity].
Qed.

Lemma reachable_init (c : Ctx) (size : Z) (p : Pool) :
  New c size = Some p → reachable c size (init p).
Proof. intros H. exists p, []. split; [exact H | reflexivity]. Qed.

Lemma reachable_step (c : Ctx) (size : Z) (s s' : State) (e : event) :
  reachable c size s → step e s = Some s' → reachable c size s'.
Proof.
  intros (p & es & Hp & Hr) He. exists p, (es ++ [e]). split; [exact Hp|].
  rewrite run_app, Hr. simpl. rewrite He. reflexivity.
Qed.

Lemma reachable_run (c : Ctx) (size : Z) (s s' : State) (es : list event) :
  reachable c size s → run es s = Some s' → reachable c size s'.
Proof.
  intros (p & es0 & Hp & Hr) He. exists p, (es0 ++ es). split; [exact Hp|].
  rewrite run_app, Hr. exact He.
Qed.

(** Induction over the reachable states. *)
Lemma reachable_ind (c : Ctx) (size : Z) (P : State → Prop) :
  (∀ p, New c size = Some p → P (init p)) →
  (∀ s e s', reachable c size s → P s → step e s = Some s' → P s') →
  ∀ s, reachable c size s → P s.
Proof.
  intros Hinit Hstep s (p & es & Hp & Hr). revert s Hr.
  induction es as [|e es IH] using rev_ind; intros s Hr.
  - injection Hr as <-. apply Hinit, Hp.
  - rewrite run_app in Hr. destruct (run es (init p)) as [s0|] eqn:H0;
      simpl in Hr; [|discriminate].
    destruct (step e s0) as [s1|] eqn:H1; [|discriminate].
    injection Hr as <-. apply (Hstep s0 e s1); [|apply IH; reflexivity|exact H1].
    exists p, es. split; assumption.
Qed.

(** ** The invariant holds in every reachable state *)

Lemma New_Some (c : Ctx) (size : Z) (p : Pool) :
  New c size = Some p →
  0 ≤ size ∧ p = mkPool c (Chan.mk size 0 false) (Chan.mk 0 0 false) false 0 0 0.
Proof.
  unfold New, Chan.make. destruct (size <? 0) eqn:E; [discriminate|].
  intros [= <-]. split; [lia | reflexivity].
Qed.

Lemma Inv_init (c : Ctx) (size : Z) (p : Pool) :
  New c size = Some p → Inv c size (init p).
Proof.
  intros H. apply New_Some in H as [Hs ->].
  constructor; simpl; try reflexivity; try lia. constructor.
Qed.

Lemma Inv_closeDone (c : Ctx) (size : Z) (s : State) :
  Inv c size s → Inv c size (call_closeDone s) ∧ crashed (call_closeDone s) = crashed s.
Proof.
  intros HI. pose proof (inv_once _ _ _ HI) as Ho.
  pose proof (inv_closes _ _ _ HI) as Hc.
  unfold call_closeDone, Chan.close.
  destruct (closeDone (pool s)) eqn:E1; [split; [exact HI | reflexivity]|].
  rewrite <- Ho. rewrite <- Ho in Hc. split; [|reflexivity].
  destruct HI. constructor; simpl; try assumption; try reflexivity.
  rewrite Hc. reflexivity.
Qed.

(** Closes one field of the invariant after a transition: the counts of the
    new lists have been rewritten to those of the old ones. *)
Ltac inv_field HI :=
  first
    [ assumption
    | lia
    | match goal with
      | |- _ = Atomic.wrap _ _ =>
          first [ rewrite (inv_running _ _ _ HI)
                | rewrite (inv_worked _ _ _ HI)
                | rewrite (inv_index _ _ _ HI) ];
          unfold Atomic.Int32_Add, Atomic.Int64_Add;
          rewrite ?wrap_add_l by lia; f_equal; lia
      end ].

(** The field [inv_tasks] after one goroutine moved. *)
Ltac tasks_field :=
  first
    [ assumption
    | apply Forall_insert; [assumption|];
      unfold task_ok, recover in *; simpl in *; subst; intuition eauto
    | apply Forall_app; split; [assumption|];
      repeat constructor ].

Lemma Inv_step (c : Ctx) (size : Z) (s s' : State) (e : event) :
  Inv c size s → step e s = Some s' → Inv c size s'.
Proof.
  intros HI Hs. unfold step in Hs.
  destruct (crashed s); [discriminate|].
  destruct e as [c0|f|i k|i j|i|j|].
  - injection Hs as <-. destruct HI. constructor; simpl; assumption.
  - injection Hs as <-. pose proof HI as [].
    constructor; simpl; rewrite ?count_app; simpl; inv_field HI.
  - destruct (calls s !! i) as [[fn pc]|] eqn:Hc; [|discriminate].
    simpl in Hs. destruct pc; try discriminate.
    destruct (select_ready s k) eqn:Hk; [|discriminate].
    injection Hs as <-. pose proof HI as [].
    destruct k; simpl in *.
    all: constructor; simpl; rewrite ?(count_insert _ _ _ _ _ Hc); simpl;
      unfold Chan.send_buffer_ready in *; inv_field HI.
  - destruct (calls s !! i) as [[fn pc]|] eqn:Hc; [|discriminate].
    destruct (tasks s !! j) as [[tc tf tpc ta tp]|] eqn:Ht; [|discriminate].
    simpl in Hs. destruct pc; try discriminate. destruct tpc; try discriminate.
    destruct (Chan.recv_buffer_ready (work (pool s))); [discriminate|].
    injection Hs as <-. pose proof HI as [].
    pose proof (Forall_lookup_1 _ _ _ _ inv_tasks0 Ht) as Hok.
    constructor; simpl;
      rewrite ?(count_insert _ _ _ _ _ Hc), ?(count_insert _ _ _ _ _ Ht),
        ?length_insert; simpl;
      first [inv_field HI | tasks_field].
  - destruct (calls s !! i) as [[fn pc]|] eqn:Hc; [|discriminate].
    unfold call_next in Hs. simpl in Hs.
    destruct pc; try discriminate; injection Hs as <-.
    + destruct (Inv_closeDone _ _ _ HI) as [HI' _].
      assert (Hc' : calls (call_closeDone s) !! i = Some (mkCall fn CCloseDone)).
      { unfold call_closeDone, Chan.close.
        destruct (closeDone (pool s)), (Chan.closed (done (pool s))); exact Hc. }
      assert (Ht' : tasks (call_closeDone s) = tasks s).
      { unfold call_closeDone, Chan.close.
        destruct (closeDone (pool s)), (Chan.closed (done (pool s))); reflexivity. }
      pose proof HI' as [].
      constructor; simpl; rewrite ?(count_insert _ _ _ _ _ Hc'); simpl;
        inv_field HI'.
    + pose proof HI as [].
      constructor; simpl; rewrite ?(count_insert _ _ _ _ _ Hc); simpl;
        inv_field HI.
    + pose proof HI as [].
      constructor; simpl;
        rewrite ?(count_insert _ _ _ _ _ Hc), ?count_app, ?length_app; simpl;
        first [inv_field HI | tasks_field].
  - destruct (tasks s !! j) as [[tc tf tpc ta tp]|] eqn:Ht; [|discriminate].
    unfold task_next in Hs. simpl in Hs.
    pose proof HI as [].
    pose proof (Forall_lookup_1 _ _ _ _ inv_tasks0 Ht) as Hok.
    destruct tpc; try discriminate.
    7: destruct tp.
    4: destruct (Chan.recv_buffer_ready (work (pool s))) eqn:Hr; [|discriminate].
    all: injection Hs as <-.
    all: constructor; simpl;
      rewrite ?(count_insert _ _ _ _ _ Ht), ?length_insert; simpl;
      unfold Chan.recv_buffer_ready in *;
      first [inv_field HI | tasks_field].
  - injection Hs as <-. apply Inv_closeDone, HI.
Qed.

Lemma reachable_Inv (c : Ctx) (size : Z) (s : State) :
  reachable c size s → Inv c size s.
Proof.
  revert s. apply reachable_ind.
  - apply Inv_init.
  - intros s e s' _ HI Hs. exact (Inv_step _ _ _ _ _ HI Hs).
Qed.

(** ** The indices *)

Lemma idx_ok_insert_same (l : list Task) (j : nat) (t t' : Task) :
  l !! j = Some t → task_index t' = task_index t →
  task_started t' = task_started t → idx_ok l → idx_ok (<[j := t']> l).
Proof.
  intros Hj Hi Hst [Hr Hinj].
  assert (Hcount : count task_started (<[j := t']> l) = count task_started l).
  { rewrite (count_insert _ _ _ _ _ Hj), Hst. lia. }
  assert (Hlook : ∀ k u i, <[j := t']> l !! k = Some u → task_index u = Some i →
                    ∃ u0, l !! k = Some u0 ∧ task_index u0 = Some i).
  { intros k u i Hk Hu. apply list_lookup_insert_Some in Hk as [(-> & -> & _)|[_ Hk]].
    - exists t. split; [exact Hj | congruence].
    - exists u. split; assumption. }
  split.
  - intros k u i Hk Hu. rewrite Hcount.
    destruct (Hlook k u i Hk Hu) as (u0 & H0 & H1). exact (Hr k u0 i H0 H1).
  - intros k1 k2 u1 u2 i Hk1 Hk2 Hu1 Hu2.
    destruct (Hlook k1 u1 i Hk1 Hu1) as (v1 & Ha & Hb).
    destruct (Hlook k2 u2 i Hk2 Hu2) as (v2 & Hc & Hd).
    exact (Hinj k1 k2 v1 v2 i Ha Hc Hb Hd).
Qed.

Lemma idx_ok_snoc (l : list Task) (t : Task) :
  task_index t = None → task_started t = false → idx_ok l → idx_ok (l ++ [t]).
Proof.
  intros Hi Hst [Hr Hinj].
  assert (Hcount : count task_started (l ++ [t]) = count task_started l).
  { rewrite count_app. simpl. rewrite Hst. lia. }
  assert (Hlook : ∀ k u i, (l ++ [t]) !! k = Some u → task_index u = Some i →
                    l !! k = Some u).
  { intros k u i Hk Hu. apply lookup_app_Some in Hk as [Hk|[_ Hk]]; [exact Hk|].
    apply list_lookup_singleton_Some in Hk as [_ <-]. congruence. }
  split.
  - intros k u i Hk Hu. rewrite Hcount. exact (Hr k u i (Hlook k u i Hk Hu) Hu).
  - intros k1 k2 u1 u2 i Hk1 Hk2 Hu1 Hu2.
    exact (Hinj k1 k2 u1 u2 i (Hlook _ _ _ Hk1 Hu1) (Hlook _ _ _ Hk2 Hu2) Hu1 Hu2).
Qed.

Lemma idx_ok_start (l : list Task) (j : nat) (t t' : Task) :
  l !! j = Some t → task_started t = false → task_started t' = true →
  task_index t' = Some (count task_started l + 1) →
  idx_ok l → idx_ok (<[j := t']> l).
Proof.
  intros Hj Hst Hst' Hi [Hr Hinj].
  assert (Hcount : count task_started (<[j := t']> l) = count task_started l + 1).
  { rewrite (count_insert _ _ _ _ _ Hj), Hst, Hst'. lia. }
  pose proof (count_nonneg task_started l) as H0.
  split.
  - intros k u i Hk Hu. rewrite Hcount.
    apply list_lookup_insert_Some in Hk as [(-> & -> & _)|[_ Hk]].
    + rewrite Hi in Hu. injection Hu as <-. lia.
    + specialize (Hr k u i Hk Hu). lia.
  - intros k1 k2 u1 u2 i Hk1 Hk2 Hu1 Hu2.
    apply list_lookup_insert_Some in Hk1 as [(-> & -> & _)|[Hn1 Hk1]];
      apply list_lookup_insert_Some in Hk2 as [(E2 & -> & _)|[Hn2 Hk2]].
    + congruence.
    + rewrite Hi in Hu1. injection Hu1 as <-.
      specialize (Hr k2 u2 _ Hk2 Hu2). lia.
    + rewrite Hi in Hu2. injection Hu2 as <-.
      specialize (Hr k1 u1 _ Hk1 Hu1). lia.
    + exact (Hinj k1 k2 u1 u2 i Hk1 Hk2 Hu1 Hu2).
Qed.

Lemma step_tasks_length (s s' : State) (e : event) :
  step e s = Some s' → (length (tasks s) ≤ length (tasks s'))%nat.
Proof.
  unfold step, call_next, task_next, Exit, call_closeDone, Chan.close.
  intros Hs.
  repeat match type of Hs with
         | context [match ?x with _ => _ end] => destruct x eqn:?; try discriminate
         end.
  all: injection Hs as <-; simpl; rewrite ?length_insert, ?length_app; simpl; try lia.
  destruct k; simpl; lia.
Qed.

Lemma step_idx_ok (c : Ctx) (size : Z) (s s' : State) (e : event) :
  Inv c size s → idx_ok (tasks s) → step e s = Some s' →
  Z.of_nat (length (tasks s')) ≤ Atomic.max_int64 → idx_ok (tasks s').
Proof.
  intros HI Hok Hs Hlen. unfold step in Hs.
  destruct (crashed s); [discriminate|].
  destruct e as [c0|f|i k|i j|i|j|].
  - injection Hs as <-. exact Hok.
  - injection Hs as <-. exact Hok.
  - destruct (calls s !! i) as [[fn pc]|]; [|discriminate].
    simpl in Hs. destruct pc; try discriminate.
    destruct (select_ready s k); [|discriminate].
    injection Hs as <-. destruct k; exact Hok.
  - destruct (calls s !! i) as [[fn pc]|]; [|discriminate].
    destruct (tasks s !! j) as [[tc tf tpc ta tp]|] eqn:Ht; [|discriminate].
    simpl in Hs. destruct pc; try discriminate. destruct tpc; try discriminate.
    destruct (Chan.recv_buffer_ready (work (pool s))); [discriminate|].
    injection Hs as <-. simpl.
    apply (idx_ok_insert_same _ _ _ _ Ht); [reflexivity..|exact Hok].
  - destruct (calls s !! i) as [[fn pc]|]; [|discriminate].
    unfold call_next in Hs. simpl in Hs.
    destruct pc; try discriminate; injection Hs as <-; simpl.
    + unfold call_closeDone, Chan.close.
      destruct (closeDone (pool s)), (Chan.closed (done (pool s))); exact Hok.
    + exact Hok.
    + apply idx_ok_snoc; [reflexivity..|exact Hok].
  - destruct (tasks s !! j) as [[tc tf tpc ta tp]|] eqn:Ht; [|discriminate].
    unfold task_next in Hs. simpl in Hs.
    destruct tpc; try discriminate.
    7: destruct tp.
    4: destruct (Chan.recv_buffer_ready (work (pool s))); [|discriminate].
    all: injection Hs as <-; simpl in *.
    2-8: first [ exact Hok
               | apply (idx_ok_insert_same _ _ _ _ Ht); [reflexivity..|exact Hok] ].
    apply (idx_ok_start _ _ _ _ Ht); [reflexivity..| |exact Hok].
    unfold task_index. simpl. do 2 f_equal.
    rewrite (inv_index _ _ _ HI). unfold Atomic.Int64_Add.
    rewrite wrap_add_l by lia.
    rewrite length_insert in Hlen.
    pose proof (count_insert task_started _ j
                  (mkTask tc tf TBody ta tp) _ Ht) as Hc. simpl in Hc.
    pose proof (count_le_length task_started
                  (<[j := mkTask tc tf TBody ta tp]> (tasks s))) as Hle.
    rewrite length_insert in Hle.
    pose proof (count_nonneg task_started (tasks s)).
    apply wrap64_small. unfold Atomic.max_int64 in *. lia.
  - injection Hs as <-. unfold Exit, call_closeDone, Chan.close.
    destruct (closeDone (pool s)), (Chan.closed (done (pool s))); exact Hok.
Qed.

Lemma reachable_idx_ok (c : Ctx) (size : Z) (s : State) :
  reachable c size s →
  Z.of_nat (length (tasks s)) ≤ Atomic.max_int64 → idx_ok (tasks s).
Proof.
  revert s. apply (reachable_ind c size
    (λ s, Z.of_nat (length (tasks s)) ≤ Atomic.max_int64 → idx_ok (tasks s))).
  - intros p _ _. split; intros j; intros; simpl in *; discriminate.
  - intros s e s' Hr IH Hs Hlen.
    pose proof (step_tasks_length _ _ _ Hs).
    apply (step_idx_ok c size s s' e); [apply reachable_Inv, Hr | apply IH; lia | exact Hs | exact Hlen].
Qed.

(** ** What one transition can change *)

Ltac step_cases Hs :=
  unfold step, call_next, task_next, select_effect, Exit, call_closeDone,
    Chan.close in Hs;
  repeat match type of Hs with
         | context [match ?x with _ => _ end] =>
             lazymatch x with
             | context [match _ with _ => _ end] => fail
             | _ => destruct x eqn:?; try discriminate
             end
         end;
  injection Hs as <-.

Lemma reachable_intro (c : Ctx) (size : Z) (p : Pool) (es : list event) (s : State) :
  New c size = Some p → run es (init p) = Some s → reachable c size s.
Proof. intros Hp Hr. exists p, es. split; assumption. Qed.

Lemma step_live (s s' : State) (e : event) :
  step e s = Some s' → crashed s = false.
Proof. unfold step. destruct (crashed s); [discriminate | reflexivity]. Qed.

(** [running] is written by [p.running.Add(1)] after a send and by
    [p.running.Add(-1)] in the deferred closure, and nowhere else. *)
Lemma step_running (s s' : State) (e : event) :
  step e s = Some s' →
  Running s' = Running s
  ∨ (∃ i call, e = EvCaller i ∧ calls s !! i = Some call ∧ c_pc call = CAdd
       ∧ Running s' = Atomic.Int32_Add (Running s) 1)
  ∨ (∃ j t, e = EvTask j ∧ tasks s !! j = Some t ∧ t_pc t = TAddRunning
       ∧ Running s' = Atomic.Int32_Add (Running s) (-1)).
Proof.
  intros Hs. step_cases Hs; unfold Running; simpl;
    first [ left; reflexivity
          | right; left; solve [eauto 10]
          | right; right; solve [eauto 10] ].
Qed.

(** [worked] is written by [p.worked.Add(1)] in the deferred closure only. *)
Lemma step_worked (s s' : State) (e : event) :
  step e s = Some s' →
  Worked s' = Worked s
  ∨ (∃ j t, e = EvTask j ∧ tasks s !! j = Some t ∧ t_pc t = TAddWorked
       ∧ Worked s' = Atomic.Int64_Add (Worked s) 1).
Proof.
  intros Hs. step_cases Hs; unfold Worked; simpl;
    first [ left; reflexivity | right; solve [eauto 10] ].
Qed.

(** Only the environment fires a context. *)
Lemma step_fired (s s' : State) (e : event) :
  step e s = Some s' → (∀ c0, e ≠ EvCancel c0) → fired s' = fired s.
Proof.
  intros Hs Hne. step_cases Hs; simpl; try reflexivity.
  exfalso. eapply Hne. reflexivity.
Qed.

(** A closed [done] stays closed. *)
Lemma step_done_closed (s s' : State) (e : event) :
  step e s = Some s' →
  Chan.closed (done (pool s)) = true → Chan.closed (done (pool s')) = true.
Proof.
  intros Hs Hd. step_cases Hs; simpl; first [exact Hd | reflexivity | congruence].
Qed.

Lemma run_done_closed (es : list event) (s s' : State) :
  run es s = Some s' →
  Chan.closed (done (pool s)) = true → Chan.closed (done (pool s')) = true.
Proof.
  revert s. induction es as [|e es IH]; intros s Hr Hd; simpl in Hr.
  - injection Hr as <-. exact Hd.
  - destruct (step e s) as [s1|] eqn:Hs; [|discriminate].
    exact (IH s1 Hr (step_done_closed _ _ _ Hs Hd)).
Qed.

(** What [p.closeDone()] does in a state that satisfies the invariant. *)
Lemma call_closeDone_spec (c : Ctx) (size : Z) (s : State) :
  Inv c size s →
  let s' := call_closeDone s in
  Chan.closed (done (pool s')) = true
  ∧ closes s' = 1%nat
  ∧ closes s' = (if Chan.closed (done (pool s)) then closes s else S (closes s))
  ∧ crashed s' = crashed s
  ∧ calls s' = calls s ∧ tasks s' = tasks s ∧ fired s' = fired s
  ∧ ctx (pool s') = ctx (pool s) ∧ work (pool s') = work (pool s)
  ∧ running (pool s') = running (pool s) ∧ worked (pool s') = worked (pool s)
  ∧ index (pool s') = index (pool s)
  ∧ (Chan.closed (done (pool s)) = true → s' = s).
Proof.
  intros HI. pose proof (inv_once _ _ _ HI) as Ho.
  pose proof (inv_closes _ _ _ HI) as Hc.
  unfold call_closeDone, Chan.close. simpl. rewrite Ho.
  destruct (Chan.closed (done (pool s))) eqn:Hd; simpl.
  - rewrite Hd. repeat split; auto.
  - rewrite Hc. repeat split; auto. discriminate.
Qed.

Lemma run_from_reachable (c : Ctx) (size : Z) (es : list event) (s : State) :
  run_from c size es = Some s → reachable c size s.
Proof.
  unfold run_from. destruct (New c size) as [p|] eqn:Hp; simpl; [|discriminate].
  intros Hr. exact (reachable_intro _ _ _ _ _ Hp Hr).
Qed.

(** In a pool of capacity 0 no call gets past the send and no goroutine
    exists. *)
Lemma capacity_zero_inv (c : Ctx) (s : State) :
  reachable c 0 s →
  tasks s = [] ∧ Forall (λ call, call_admitted call = false) (calls s).
Proof.
  revert s. apply reachable_ind.
  - intros p Hp. apply New_Some in Hp as [_ ->]. split; [reflexivity|constructor].
  - intros s e s' Hr [Ht Hc] Hs.
    pose proof (reachable_Inv _ _ _ Hr) as HI.
    pose proof (inv_len _ _ _ HI) as Hlen.
    pose proof (inv_cap _ _ _ HI) as Hcap.
    pose proof (count_nonneg call_holds (calls s)).
    pose proof (count_nonneg task_holds (tasks s)).
    unfold step in Hs. destruct (crashed s); [discriminate|].
    destruct e as [c0|f|i k|i j|i|j|].
    + injection Hs as <-. split; assumption.
    + injection Hs as <-. simpl. split; [exact Ht|].
      apply Forall_app. split; [exact Hc|]. repeat constructor.
    + destruct (calls s !! i) as [[fn pc]|] eqn:Hi; [|discriminate].
      simpl in Hs. destruct pc; try discriminate.
      destruct (select_ready s k) eqn:Hk; [|discriminate].
      injection Hs as <-. destruct k; simpl in *.
      * split; [exact Ht|]. apply Forall_insert; [exact Hc|reflexivity].
      * split; [exact Ht|]. apply Forall_insert; [exact Hc|reflexivity].
      * unfold Chan.send_buffer_ready in Hk. lia.
    + rewrite Ht in Hs. destruct (calls s !! i); discriminate.
    + destruct (calls s !! i) as [[fn pc]|] eqn:Hi; [|discriminate].
      pose proof (Forall_lookup_1 _ _ _ _ Hc Hi) as Hadm.
      unfold call_admitted in Hadm. simpl in Hadm.
      unfold call_next in Hs. simpl in Hs.
      destruct pc; try discriminate. injection Hs as <-.
      destruct (call_closeDone_spec _ _ _ HI)
        as (_ & _ & _ & _ & Hcalls & Htasks & _).
      simpl. rewrite Hcalls, Htasks. split; [exact Ht|].
      apply Forall_insert; [exact Hc|reflexivity].
    + rewrite Ht in Hs. discriminate.
    + injection Hs as <-.
      destruct (call_closeDone_spec _ _ _ HI)
        as (_ & _ & _ & _ & Hcalls & Htasks & _).
      unfold Exit. rewrite Hcalls, Htasks. split; assumption.
Qed.

(** ** C1 *)

(** C1: once the closed signal has fired no call is admitted.  The code does
    not keep this: the select of [RunWithContextAndIndex] has the case
    [<-p.done] and the case [p.work <- struct{}{}] ready together when a
    slot is free, and may take the send.  Here [Exit] has returned before
    the call is made, on a pool of size 1; the call returns true and its
    goroutine is started. *)
Lemma C1_admitted_after_Exit :
  ∃ p s0 s,
    New 0%nat 1 = Some p
    ∧ run [EvExit; EvCall quiet] (init p) = Some s0
    ∧ Chan.closed (done (pool s0)) = true
    ∧ select_ready s0 CaseDone = true
    ∧ select_ready s0 CaseSend = true
    ∧ run [EvSelect 0 CaseSend; EvCaller 0; EvCaller 0] s0 = Some s
    ∧ c_pc <$> calls s = [CRet true]
    ∧ t_pc <$> tasks s = [TStart]
    ∧ Running s = 1.
Proof. do 3 eexists. repeat (split; [vm_compute; reflexivity|]). vm_compute; reflexivity. Qed.

(** ** C2 *)

(** C2, counterexample: five calls made one after the other by one caller
    on a pool of size 5, each returned true before the next is made; the
    goroutines are then scheduled last first.  Each takes its index when it
    starts, so the first call's function is given 5 and the last one's 1. *)
Lemma C2_counterexample :
  ∃ p s,
    New 0%nat 5 = Some p
    ∧ run five_reversed (init p) = Some s
    ∧ (λ t : Task, (t_call t, task_index t)) <$> tasks s
      = [(0%nat, Some 5); (1%nat, Some 4); (2%nat, Some 3); (3%nat, Some 2);
         (4%nat, Some 1)]
    ∧ ¬ indices_follow_dispatch s.
Proof.
  do 2 eexists. repeat (split; [vm_compute; reflexivity|]).
  intros H. specialize (H 0%nat 1%nat _ _ 5 4 eq_refl eq_refl eq_refl eq_refl).
  lia.
Qed.

(** C2, as the code has it: a goroutine takes its index when it starts, by
    [p.index.Add(1)] in the argument list of the call of its function.  As
    long as the number of goroutines fits the Int64 cell: [index] is the
    number of goroutines that have started; a goroutine that has not started
    has no index, and one that is in its function or past it was given the
    context of [New] and an index between 1 and [index]; two different
    goroutines never have the same index; and the goroutine that starts next
    is given [index + 1], so the indices are 1, 2, 3, ... in the order in
    which the goroutines start. *)
Theorem C2_indices_by_start (c : Ctx) (size : Z) (s : State)
    (Hr : reachable c size s)
    (Hfit : Z.of_nat (length (tasks s)) ≤ Atomic.max_int64) :
  index (pool s) = count task_started (tasks s)
  ∧ (∀ j t, tasks s !! j = Some t →
       if task_started t
       then ∃ i, t_args t = Some (c, i) ∧ 1 ≤ i ≤ index (pool s)
       else t_args t = None)
  ∧ (∀ j1 j2 t1 t2 i, tasks s !! j1 = Some t1 → tasks s !! j2 = Some t2 →
       task_index t1 = Some i → task_index t2 = Some i → j1 = j2)
  ∧ (∀ j t, crashed s = false → tasks s !! j = Some t → t_pc t = TStart →
       ∃ s' t', step (EvTask j) s = Some s'
                ∧ tasks s' !! j = Some t'
                ∧ t_pc t' = TBody
                ∧ task_index t' = Some (index (pool s) + 1)
                ∧ index (pool s') = index (pool s) + 1).
Proof.
  pose proof (reachable_Inv _ _ _ Hr) as HI.
  destruct (reachable_idx_ok _ _ _ Hr Hfit) as [Hrange Hinj].
  pose proof (count_nonneg task_started (tasks s)) as H0.
  pose proof (count_le_length task_started (tasks s)) as H1.
  assert (Heq : index (pool s) = count task_started (tasks s)).
  { rewrite (inv_index _ _ _ HI). apply wrap64_small.
    unfold Atomic.max_int64 in *. lia. }
  split; [exact Heq|]. split; [|split; [exact Hinj|]].
  - intros j t Ht.
    pose proof (Forall_lookup_1 _ _ _ _ (inv_tasks _ _ _ HI) Ht) as Hok.
    unfold task_ok in Hok. unfold task_started.
    assert (He : t_pc t ≠ TStart → ∃ i, t_args t = Some (c, i))
      by (destruct (t_pc t); tauto).
    destruct (t_pc t) eqn:Hpc; try exact Hok.
    all: destruct He as [i Hi]; [discriminate|]; exists i; split; [exact Hi|];
      rewrite Heq; apply (Hrange j t i Ht); unfold task_index; rewrite Hi;
      reflexivity.
  - intros j t Hlive Ht Hpc.
    assert (Hnext : Atomic.Int64_Add (index (pool s)) 1 = index (pool s) + 1).
    { unfold Atomic.Int64_Add.
      assert (count task_started (tasks s) + 1 ≤ Z.of_nat (length (tasks s))).
      { apply (count_lookup_lt _ _ j t Ht). unfold task_started.
        rewrite Hpc. reflexivity. }
      apply wrap64_small. unfold Atomic.max_int64 in *. lia. }
    do 2 eexists. split.
    { unfold step. rewrite Hlive, Ht. unfold task_next. rewrite Hpc. reflexivity. }
    simpl. split.
    { apply list_lookup_insert_eq. exact (lookup_lt_Some _ _ _ Ht). }
    simpl. rewrite Hnext. repeat split.
Qed.

Lemma C2_witness :
  ∃ s, run_from 0%nat 5 five_in_order = Some s
       ∧ task_index <$> tasks s = [Some 1; Some 2; Some 3; Some 4; Some 5]
       ∧ Z.of_nat (length (tasks s)) ≤ Atomic.max_int64
       ∧ index (pool s) = count task_started (tasks s).
Proof.
  eexists. split; [vm_compute; reflexivity|]. split; [reflexivity|].
  match goal with
  | |- ?hyp ∧ _ =>
      assert (Hfit : hyp) by (vm_compute; discriminate);
      split; [exact Hfit|];
      refine (proj1 (C2_indices_by_start 0%nat 5 _ _ Hfit));
      apply (run_from_reachable _ _ five_in_order); vm_compute; reflexivity
  end.
Defined.

(** ** C3 *)

(** C3: a panic of a task body is caught and discarded.  The code does not
    do this: [defer recover()] makes [recover] itself the deferred call, so
    it is not called by a deferred function and returns nil; the panic goes
    on through the other deferred closure (slot released, [running]
    decremented, [worked] incremented) and then ends the process.  One
    panicking task on a pool of size 1. *)
Lemma C3_panic_ends_process :
  ∃ p s,
    New 0%nat 1 = Some p
    ∧ run (submit 0 faulty ++ finish 0) (init p) = Some s
    ∧ c_pc <$> calls s = [CRet true]
    ∧ Chan.len (work (pool s)) = 0
    ∧ Running s = 0
    ∧ Worked s = 1
    ∧ crashed s = true
    ∧ ∀ e, step e s = None.
Proof.
  do 2 eexists. repeat (split; [vm_compute; reflexivity|]).
  intros e. reflexivity.
Qed.

(** ** C4 *)

(** C4: a call whose select takes the case [<-p.ctx.Done()] closes [done]
    and returns false.  The select can take that case only when the
    context given to [New] has fired, and taking it changes nothing but the
    program point of the call.  Whatever the other threads do before the
    call goes on (the events [es]), its [p.closeDone()] does not panic,
    returns false to the caller, leaves the slots, the three counters and the
    goroutines as they were, and leaves [done] closed with [close(done)]
    executed exactly once since [New]: by this call if [done] was open, by
    nobody again if an earlier call or [Exit] had closed it. *)
Theorem C4_cancel_observed (c : Ctx) (size : Z) (s s1 s2 : State) (i : nat)
    (call2 : Call) (es : list event)
    (Hr : reachable c size s)
    (Hsel : step (EvSelect i CaseCtxDone) s = Some s1)
    (Hes : run es s1 = Some s2)
    (Hc2 : calls s2 !! i = Some call2)
    (Hpc2 : c_pc call2 = CCloseDone)
    (Hlive : crashed s2 = false) :
  ctx_fired s c = true
  ∧ (∃ call, calls s !! i = Some call ∧ c_pc call = CSelect
             ∧ s1 = set_call s i (at_pc call CCloseDone))
  ∧ ∃ s3, step (EvCaller i) s2 = Some s3
      ∧ calls s3 !! i = Some (at_pc call2 (CRet false))
      ∧ work (pool s3) = work (pool s2)
      ∧ running (pool s3) = running (pool s2)
      ∧ worked (pool s3) = worked (pool s2)
      ∧ index (pool s3) = index (pool s2)
      ∧ tasks s3 = tasks s2
      ∧ length (calls s3) = length (calls s2)
      ∧ Chan.closed (done (pool s3)) = true
      ∧ closes s3 = 1%nat
      ∧ closes s3 = (if Chan.closed (done (pool s2)) then closes s2 else S (closes s2))
      ∧ crashed s3 = false.
Proof.
  pose proof (reachable_Inv _ _ _ Hr) as HI.
  pose proof (reachable_run _ _ _ _ _ (reachable_step _ _ _ _ _ Hr Hsel) Hes) as Hr2.
  pose proof (reachable_Inv _ _ _ Hr2) as HI2.
  split; [|split].
  - unfold step in Hsel. destruct (crashed s); [discriminate|].
    destruct (calls s !! i) as [call|]; [|discriminate].
    destruct (c_pc call); try discriminate.
    destruct (select_ready s CaseCtxDone) eqn:Hk; [|discriminate].
    simpl in Hk. rewrite (inv_ctx _ _ _ HI) in Hk. exact Hk.
  - unfold step in Hsel. destruct (crashed s); [discriminate|].
    destruct (calls s !! i) as [call|]; [|discriminate].
    exists call. destruct (c_pc call); try discriminate.
    destruct (select_ready s CaseCtxDone); [|discriminate].
    injection Hsel as <-. repeat split; reflexivity.
  - destruct (call_closeDone_spec _ _ _ HI2)
      as (Hd & Hc1 & Hc & Hcr & Hcalls & Htasks & _ & _ & Hw & Hrun & Hwk & Hidx & _).
    exists (set_call (call_closeDone s2) i (at_pc call2 (CRet false))).
    split.
    { unfold step. rewrite Hlive, Hc2. unfold call_next. rewrite Hpc2. reflexivity. }
    simpl. rewrite Hcalls. repeat split; try assumption.
    + apply list_lookup_insert_eq. exact (lookup_lt_Some _ _ _ Hc2).
    + apply length_insert.
    + rewrite Hcr. exact Hlive.
Qed.

Lemma C4_witness :
  ∃ s s1,
    run_from 0%nat 1 cancelled_then_called = Some s
    ∧ step (EvSelect 0 CaseCtxDone) s = Some s1
    ∧ ∃ s3, step (EvCaller 0) s1 = Some s3
            ∧ calls s3 !! 0%nat = Some (mkCall quiet (CRet false))
            ∧ tasks s3 = [] ∧ closes s3 = 1%nat.
Proof.
  do 2 eexists. split; [vm_compute; reflexivity|]. split; [vm_compute; reflexivity|].
  match goal with
  | |- ∃ s3, step _ ?s1 = _ ∧ _ =>
      assert (Hr : reachable 0%nat 1
                     (mkState (mkPool 0%nat (Chan.mk 1 0 false) (Chan.mk 0 0 false)
                                      false 0 0 0)
                              [0%nat] [mkCall quiet CSelect] [] false 0%nat))
        by (apply (run_from_reachable _ _ cancelled_then_called);
            vm_compute; reflexivity);
      pose proof (C4_cancel_observed 0%nat 1 _ s1 s1 0%nat
                    (mkCall quiet CCloseDone) [] Hr eq_refl eq_refl eq_refl
                    eq_refl eq_refl)
        as (_ & _ & s3 & H1 & H2 & _ & _ & _ & _ & H3 & _ & _ & H4 & _)
  end.
  exists s3. repeat split; assumption.
Defined.

(** ** C5 *)

(** C5: [Exit] is idempotent.  In every state of a pool, a call of [Exit]
    does not panic; after it [done] is closed and [close(done)] has been
    executed exactly once since [New], whether this call or an earlier
    [Exit] or an earlier cancelled submission executed it; a second [Exit],
    and any number of them, leaves the state as the first did; and it stays
    so in every continuation, whatever further calls of [Exit] or
    submissions it contains. *)
Theorem C5_Exit_idempotent (c : Ctx) (size : Z) (s : State)
    (Hr : reachable c size s) (Hlive : crashed s = false) :
  step EvExit s = Some (Exit s)
  ∧ crashed (Exit s) = false
  ∧ Chan.closed (done (pool (Exit s))) = true
  ∧ closes (Exit s) = 1%nat
  ∧ closes (Exit s) = (if Chan.closed (done (pool s)) then closes s else S (closes s))
  ∧ Exit (Exit s) = Exit s
  ∧ (∀ n, Nat.iter (S n) Exit s = Exit s)
  ∧ (∀ es s', run es (Exit s) = Some s' →
       Chan.closed (done (pool s')) = true ∧ closes s' = 1%nat).
Proof.
  pose proof (reachable_Inv _ _ _ Hr) as HI.
  destruct (call_closeDone_spec _ _ _ HI)
    as (Hd & Hc1 & Hc & Hcr & _).
  assert (Hstep : step EvExit s = Some (Exit s)).
  { unfold step. rewrite Hlive. reflexivity. }
  pose proof (reachable_step _ _ _ _ _ Hr Hstep) as Hr'.
  pose proof (reachable_Inv _ _ _ Hr') as HI'.
  assert (Hidem : Exit (Exit s) = Exit s).
  { destruct (call_closeDone_spec _ _ _ HI') as (_ & _ & _ & _ & _ & _ & _ & _ & _ & _ & _ & _ & H).
    exact (H Hd). }
  repeat split; try assumption.
  - unfold Exit. rewrite Hcr. exact Hlive.
  - intros n. induction n as [|n IH]; [reflexivity|].
    change (Exit (Nat.iter (S n) Exit s) = Exit s). rewrite IH. exact Hidem.
  - exact (run_done_closed _ _ _ H Hd).
  - pose proof (reachable_run _ _ _ _ _ Hr' H) as Hr2.
    rewrite (inv_closes _ _ _ (reachable_Inv _ _ _ Hr2)).
    rewrite (run_done_closed _ _ _ H Hd). reflexivity.
Qed.

Lemma C5_witness :
  ∃ s, run_from 0%nat 2 (submit 0 quiet) = Some s
       ∧ crashed s = false
       ∧ Exit (Exit s) = Exit s.
Proof.
  eexists. split; [vm_compute; reflexivity|].
  match goal with
  | |- crashed ?s = false ∧ _ =>
      assert (Hr : reachable 0%nat 2 s)
        by (apply (run_from_reachable _ _ (submit 0 quiet)); vm_compute; reflexivity);
      assert (Hl : crashed s = false) by reflexivity;
      pose proof (C5_Exit_idempotent _ _ _ Hr Hl) as (_ & _ & _ & _ & _ & H & _)
  end.
  split; [reflexivity | exact H].
Defined.

(** ** C6 *)

(** C6, counterexample: on a pool of size 1 the first goroutine has executed
    [<-p.work] and not yet [p.running.Add(-1)] when a second call takes the
    free slot and executes [p.running.Add(1)]: [Running] is 2. *)
Lemma C6_counterexample :
  ∃ p s,
    New 0%nat 1 = Some p
    ∧ run overshoot (init p) = Some s
    ∧ Running s = 2
    ∧ ¬ (0 ≤ Running s ≤ 1).
Proof.
  do 2 eexists. repeat (split; [vm_compute; reflexivity|]).
  vm_compute. intros [_ H]. apply H. reflexivity.
Qed.

(** C6, as the code has it: [running] is the number of calls between their
    [Add(1)] and their go statement plus the number of goroutines that have
    not yet executed [Add(-1)].  It is never negative, and it exceeds [size]
    by at most the number r of goroutines that have released their slot and
    not yet executed [Add(-1)]; so it is within [0, size] whenever no
    goroutine is at that point.  (All as long as size + r fits the Int32
    cell.)  It is incremented only by a call that has just reserved a slot,
    and decremented only by a goroutine whose function has ended and whose
    slot is released. *)
Theorem C6_running_bounds (c : Ctx) (size : Z) (s : State)
    (Hr : reachable c size s)
    (Hfit : size + count task_released (tasks s) ≤ Atomic.max_int32) :
  Running s = count call_counted (calls s) + count task_counted (tasks s)
  ∧ 0 ≤ Running s ≤ size + count task_released (tasks s)
  ∧ (count task_released (tasks s) = 0 → 0 ≤ Running s ≤ size)
  ∧ ∀ e s', step e s = Some s' →
      Running s' = Running s
      ∨ (∃ i call, e = EvCaller i ∧ calls s !! i = Some call ∧ c_pc call = CAdd
           ∧ Running s' = Running s + 1)
      ∨ (∃ j t, e = EvTask j ∧ tasks s !! j = Some t ∧ t_pc t = TAddRunning
           ∧ Running s' = Running s - 1).
Proof.
  pose proof (reachable_Inv _ _ _ Hr) as HI.
  pose proof (inv_len _ _ _ HI) as Hlen.
  pose proof (inv_len_cap _ _ _ HI) as Hcap.
  pose proof (inv_running _ _ _ HI) as Hrun.
  pose proof (count_nonneg call_counted (calls s)) as H0.
  pose proof (count_nonneg task_counted (tasks s)) as H1.
  pose proof (count_nonneg task_released (tasks s)) as H2.
  assert (Hcc : count call_counted (calls s) ≤ count call_holds (calls s)).
  { apply count_le. intros [f pc]. unfold call_counted, call_holds. simpl.
    destruct pc; congruence. }
  assert (Htc : count task_counted (tasks s)
                = count task_holds (tasks s) + count task_released (tasks s)).
  { apply count_split. intros [a b pc d e].
    unfold task_counted, task_holds, task_released. simpl.
    destruct pc; reflexivity. }
  assert (Heq : Running s
                = count call_counted (calls s) + count task_counted (tasks s)).
  { unfold Running. rewrite Hrun. apply wrap32_small.
    unfold Atomic.max_int32 in *. lia. }
  split; [exact Heq|]. split; [lia|]. split; [lia|].
  intros e s' Hs.
  destruct (step_running _ _ _ Hs) as [H|[(i & call & -> & Hc & Hpc & H)|(j & t & -> & Ht & Hpc & H)]].
  - left. exact H.
  - right. left. exists i, call. repeat split; try assumption.
    rewrite H. unfold Atomic.Int32_Add.
    assert (count call_counted (calls s) + 1 ≤ count call_holds (calls s)).
    { apply (count_lt _ _ _ i call); [|exact Hc|..].
      - intros [f pc]. unfold call_counted, call_holds. simpl.
        destruct pc; congruence.
      - unfold call_counted. rewrite Hpc. reflexivity.
      - unfold call_holds. rewrite Hpc. reflexivity. }
    apply wrap32_small. unfold Atomic.max_int32 in *. lia.
  - right. right. exists j, t. repeat split; try assumption.
    rewrite H. unfold Atomic.Int32_Add.
    assert (1 ≤ count task_counted (tasks s)).
    { apply (count_lookup_pos _ _ j t Ht). unfold task_counted.
      rewrite Hpc. reflexivity. }
    replace (Running s + -1) with (Running s - 1) by lia.
    apply wrap32_small. unfold Atomic.max_int32 in *. lia.
Qed.

Lemma C6_witness :
  ∃ s, run_from 0%nat 1 overshoot = Some s
       ∧ 1 + count task_released (tasks s) ≤ Atomic.max_int32
       ∧ 0 ≤ Running s ≤ 1 + count task_released (tasks s).
Proof.
  eexists. split; [vm_compute; reflexivity|].
  match goal with
  | |- ?hyp ∧ _ =>
      assert (Hfit : hyp) by (vm_compute; discriminate);
      split; [exact Hfit|];
      refine (proj1 (proj2 (C6_running_bounds 0%nat 1 _ _ Hfit)));
      apply (run_from_reachable _ _ overshoot); vm_compute; reflexivity
  end.
Defined.

(** ** C7 *)

(** C7: [worked] counts the goroutines that have finished.  As long as the
    number of goroutines fits the Int64 cell: [Worked] is the number of
    goroutines that have executed their [p.worked.Add(1)]; a transition
    leaves it as it is or adds exactly 1 to it, and adds 1 only for a
    goroutine at that statement; a goroutine at that statement can execute
    it, whether its function panicked or not; and when every call has
    returned and every goroutine has finished, [Worked] is the number of
    calls that returned true and [Running] is 0. *)
Theorem C7_worked_counts_finished (c : Ctx) (size : Z) (s : State)
    (Hr : reachable c size s)
    (Hfit : Z.of_nat (length (tasks s)) ≤ Atomic.max_int64) :
  Worked s = count task_finished (tasks s)
  ∧ (∀ e s', step e s = Some s' →
       Worked s ≤ Worked s'
       ∧ (Worked s' = Worked s
          ∨ ∃ j t, e = EvTask j ∧ tasks s !! j = Some t ∧ t_pc t = TAddWorked
                   ∧ Worked s' = Worked s + 1))
  ∧ (∀ j t, crashed s = false → tasks s !! j = Some t → t_pc t = TAddWorked →
       ∃ s', step (EvTask j) s = Some s' ∧ Worked s' = Worked s + 1)
  ∧ (Forall (λ call, ∃ b, c_pc call = CRet b) (calls s) →
     Forall (λ t, task_finished t = true) (tasks s) →
     Worked s = count call_accepted (calls s) ∧ Running s = 0).
Proof.
  pose proof (reachable_Inv _ _ _ Hr) as HI.
  pose proof (count_nonneg task_finished (tasks s)) as H0.
  pose proof (count_le_length task_finished (tasks s)) as H1.
  assert (Heq : Worked s = count task_finished (tasks s)).
  { unfold Worked. rewrite (inv_worked _ _ _ HI). apply wrap64_small.
    unfold Atomic.max_int64 in *. lia. }
  assert (Hadd : ∀ j t, tasks s !! j = Some t → t_pc t = TAddWorked →
                   Atomic.Int64_Add (Worked s) 1 = Worked s + 1).
  { intros j t Ht Hpc. unfold Atomic.Int64_Add.
    assert (count task_finished (tasks s) + 1 ≤ Z.of_nat (length (tasks s))).
    { apply (count_lookup_lt _ _ j t Ht). unfold task_finished.
      rewrite Hpc. reflexivity. }
    apply wrap64_small. unfold Atomic.max_int64 in *. lia. }
  split; [exact Heq|]. split; [|split].
  - intros e s' Hs.
    destruct (step_worked _ _ _ Hs) as [H|(j & t & -> & Ht & Hpc & H)].
    + split; [lia | left; exact H].
    + rewrite (Hadd j t Ht Hpc) in H. split; [lia|]. right. eauto 10.
  - intros j t Hlive Ht Hpc. eexists. split.
    + unfold step. rewrite Hlive, Ht. unfold task_next. rewrite Hpc. reflexivity.
    + unfold Worked at 1. simpl. exact (Hadd j t Ht Hpc).
  - intros Hcalls Htasks. split.
    + rewrite Heq, (count_all _ _ Htasks). exact (inv_accepted _ _ _ HI).
    + unfold Running. rewrite (inv_running _ _ _ HI).
      rewrite (count_none call_counted (calls s)), (count_none task_counted (tasks s)).
      * reflexivity.
      * eapply Forall_impl; [exact Htasks|]. intros [a b pc d e].
        unfold task_finished, task_counted. simpl. destruct pc; congruence.
      * eapply Forall_impl; [exact Hcalls|]. intros [f pc] [b Hb].
        unfold call_counted. simpl in *. rewrite Hb. reflexivity.
Qed.

Lemma C7_witness :
  ∃ s, run_from 0%nat 3 three_tasks = Some s
       ∧ Z.of_nat (length (tasks s)) ≤ Atomic.max_int64
       ∧ Worked s = 3 ∧ Running s = 0.
Proof.
  eexists. split; [vm_compute; reflexivity|].
  match goal with
  | |- ?hyp ∧ _ =>
      assert (Hfit : hyp) by (vm_compute; discriminate);
      split; [exact Hfit|];
      refine (proj2 (proj2 (proj2 (C7_worked_counts_finished 0%nat 3 _ _ Hfit))) _ _);
      [ apply (run_from_reachable _ _ three_tasks); vm_compute; reflexivity
      | repeat constructor; eexists; reflexivity
      | repeat constructor ]
  end.
Defined.

(** ** C8 *)

(** C8: a pool of capacity 0 never accepts.  No goroutine is ever started
    and no call is past the send or has returned true; the send case of the
    select can never proceed, neither into the buffer nor by handing over to
    a receiver.  A call at its select can take no case at all while neither
    the context has fired nor [done] is closed (it blocks), and once either
    has happened it can take a case, and only one of the two that reject. *)
Theorem C8_capacity_zero (c : Ctx) (s : State) (Hr : reachable c 0 s) :
  tasks s = []
  ∧ (∀ i call, calls s !! i = Some call →
       call_admitted call = false ∧ c_pc call ≠ CRet true)
  ∧ (∀ i, step (EvSelect i CaseSend) s = None)
  ∧ (∀ i j, step (EvHandoff i j) s = None)
  ∧ (∀ i call, calls s !! i = Some call → c_pc call = CSelect →
       crashed s = false →
       if ctx_fired s c || Chan.closed (done (pool s))
       then ∃ k s', step (EvSelect i k) s = Some s'
                    ∧ (k = CaseCtxDone ∨ k = CaseDone)
       else ∀ k, step (EvSelect i k) s = None).
Proof.
  destruct (capacity_zero_inv _ _ Hr) as [Ht Hc].
  pose proof (reachable_Inv _ _ _ Hr) as HI.
  pose proof (inv_len _ _ _ HI) as Hlen.
  pose proof (inv_cap _ _ _ HI) as Hcap.
  pose proof (count_nonneg call_holds (calls s)).
  pose proof (count_nonneg task_holds (tasks s)).
  assert (Hsend : select_ready s CaseSend = false).
  { simpl. unfold Chan.send_buffer_ready. lia. }
  split; [exact Ht|]. split; [|split; [|split]].
  - intros i call Hi. pose proof (Forall_lookup_1 _ _ _ _ Hc Hi) as Hadm.
    split; [exact Hadm|]. intros Hpc. unfold call_admitted in Hadm.
    rewrite Hpc in Hadm. discriminate.
  - intros i. unfold step. destruct (crashed s); [reflexivity|].
    destruct (calls s !! i) as [call|]; [|reflexivity].
    destruct (c_pc call); try reflexivity. rewrite Hsend. reflexivity.
  - intros i j. unfold step. destruct (crashed s); [reflexivity|].
    rewrite Ht. destruct (calls s !! i); reflexivity.
  - intros i call Hi Hpc Hlive.
    assert (Hstep : ∀ k, step (EvSelect i k) s
                     = if select_ready s k
                       then Some (set_call (select_effect s k) i
                                           (at_pc call (select_target k)))
                       else None).
    { intros k. unfold step. rewrite Hlive, Hi, Hpc. reflexivity. }
    destruct (ctx_fired s c) eqn:Hf; simpl.
    + exists CaseCtxDone. eexists. split; [|left; reflexivity].
      rewrite Hstep. simpl. rewrite (inv_ctx _ _ _ HI), Hf. reflexivity.
    + destruct (Chan.closed (done (pool s))) eqn:Hd.
      * exists CaseDone. eexists. split; [|right; reflexivity].
        rewrite Hstep. simpl. unfold Chan.recv_closed_ready. rewrite Hd. reflexivity.
      * intros k. rewrite Hstep. destruct k; simpl.
        -- rewrite (inv_ctx _ _ _ HI), Hf. reflexivity.
        -- unfold Chan.recv_closed_ready. rewrite Hd. reflexivity.
        -- simpl in Hsend. rewrite Hsend. reflexivity.
Qed.

Lemma C8_witness :
  ∃ s, run_from 0%nat 0 [EvCall quiet; EvCall quiet; EvExit; EvSelect 1 CaseDone]
       = Some s
       ∧ tasks s = []
       ∧ step (EvSelect 0 CaseSend) s = None.
Proof.
  eexists. split; [vm_compute; reflexivity|].
  match goal with
  | |- tasks ?s = _ ∧ _ =>
      assert (Hr : reachable 0%nat 0 s)
        by (apply (run_from_reachable _ _
                     [EvCall quiet; EvCall quiet; EvExit; EvSelect 1 CaseDone]);
            vm_compute; reflexivity);
      pose proof (C8_capacity_zero _ _ Hr) as (H1 & _ & H2 & _)
  end.
  split; [exact H1 | exact (H2 0%nat)].
Defined.

(** ** C9 *)

(** C9: a negative capacity is refused at construction.  [New] passes
    [size] to [make(chan struct{}, size)], which panics when [size] is
    negative, so [New] returns no pool, and no state of such a pool exists;
    every other capacity gives a pool. *)
Theorem C9_negative_capacity_panics (c : Ctx) (size : Z) (Hneg : size < 0) :
  New c size = None
  ∧ (∀ s, ¬ reachable c size s)
  ∧ (∀ size', New c size' = None → size' < 0).
Proof.
  assert (H : New c size = None).
  { unfold New, Chan.make. destruct (size <? 0) eqn:E; [reflexivity|lia]. }
  split; [exact H|]. split.
  - intros s (p & es & Hp & _). congruence.
  - intros size'. unfold New, Chan.make.
    destruct (size' <? 0) eqn:E; [lia|discriminate].
Qed.

Lemma C9_witness : (-1 < 0) ∧ New 0%nat (-1) = None.
Proof.
  split; [lia|]. apply (C9_negative_capacity_panics 0%nat (-1)). lia.
Defined.

(** ** C10 *)

(** C10: every task body is called with the context that was given to
    [New], and [Exit] cannot be seen through it.  The pool keeps the context
    of [New]; a goroutine that has called its function called it with that
    context; whether a context has fired is not changed by [Exit], nor by
    any transition of the pool other than the environment cancelling it. *)
Theorem C10_task_context (c : Ctx) (size : Z) (s : State)
    (Hr : reachable c size s) :
  ctx (pool s) = c
  ∧ (∀ j t, tasks s !! j = Some t → task_started t = true →
       ∃ i, t_args t = Some (c, i)
            ∧ fst (user_args (fn_entry (t_fn t)) c i) ∈ [None; Some c])
  ∧ (∀ j t c' i, tasks s !! j = Some t → t_args t = Some (c', i) → c' = c)
  ∧ (∀ c', ctx_fired (Exit s) c' = ctx_fired s c')
  ∧ (∀ e s', step e s = Some s' → (∀ c0, e ≠ EvCancel c0) →
       ∀ c', ctx_fired s' c' = ctx_fired s c').
Proof.
  pose proof (reachable_Inv _ _ _ Hr) as HI.
  pose proof (inv_tasks _ _ _ HI) as Hts.
  split; [exact (inv_ctx _ _ _ HI)|]. split; [|split; [|split]].
  - intros j t Ht Hst. pose proof (Forall_lookup_1 _ _ _ _ Hts Ht) as Hok.
    unfold task_ok in Hok. unfold task_started in Hst.
    assert (He : ∃ i, t_args t = Some (c, i))
      by (destruct (t_pc t); try discriminate; tauto).
    destruct He as [i Hi]. exists i. split; [exact Hi|].
    destruct (fn_entry (t_fn t)); simpl; rewrite !elem_of_cons; auto.
  - intros j t c' i Ht Ha. pose proof (Forall_lookup_1 _ _ _ _ Hts Ht) as Hok.
    unfold task_ok in Hok.
    assert (He : ∃ i0, t_args t = Some (c, i0))
      by (destruct (t_pc t); try tauto; congruence).
    destruct He as [i0 Hi0]. congruence.
  - intros c'. unfold ctx_fired.
    destruct (call_closeDone_spec _ _ _ HI) as (_ & _ & _ & _ & _ & _ & Hf & _).
    unfold Exit. rewrite Hf. reflexivity.
  - intros e s' Hs Hne c'. unfold ctx_fired.
    rewrite (step_fired _ _ _ Hs Hne). reflexivity.
Qed.

Lemma C10_witness :
  ∃ s, run_from 3%nat 1 (submit 0 indexed ++ [EvExit; EvTask 0]) = Some s
       ∧ t_args <$> tasks s = [Some (3%nat, 1)]
       ∧ ctx (pool s) = 3%nat.
Proof.
  eexists. split; [vm_compute; reflexivity|]. split; [reflexivity|].
  match goal with
  | |- ctx (pool ?s) = _ =>
      assert (Hr : reachable 3%nat 1 s)
        by (apply (run_from_reachable _ _ (submit 0 indexed ++ [EvExit; EvTask 0]));
            vm_compute; reflexivity);
      exact (proj1 (C10_task_context _ _ _ Hr))
  end.
Defined.

(** * Further properties of the pool *)

(** ** Slots *)

(** X1: the pool bounds concurrency.  In every state the buffer of [work]
    holds one element per call between its send and its go statement and per
    goroutine that has not yet executed [<-p.work]; it never holds more than
    [size]; so at most [size] goroutines are inside their function at any
    time; and the send case of a select is taken only while fewer than
    [size] slots are held, and takes exactly one. *)
Theorem X1_bounded_concurrency (c : Ctx) (size : Z) (s : State)
    (Hr : reachable c size s) :
  Chan.cap (work (pool s)) = size
  ∧ Chan.len (work (pool s))
    = count call_holds (calls s) + count task_holds (tasks s)
  ∧ 0 ≤ Chan.len (work (pool s)) ≤ size
  ∧ count task_in_body (tasks s) ≤ size
  ∧ (∀ i s', step (EvSelect i CaseSend) s = Some s' →
       Chan.len (work (pool s)) < size
       ∧ Chan.len (work (pool s')) = Chan.len (work (pool s)) + 1
       ∧ tasks s' = tasks s).
Proof.
  pose proof (reachable_Inv _ _ _ Hr) as HI.
  pose proof (inv_len _ _ _ HI) as Hlen.
  pose proof (inv_len_cap _ _ _ HI) as Hcap.
  pose proof (count_nonneg call_holds (calls s)) as H0.
  pose proof (count_nonneg task_holds (tasks s)) as H1.
  assert (Hb : count task_in_body (tasks s) ≤ count task_holds (tasks s)).
  { apply count_le. intros [a b pc d e]. unfold task_in_body, task_holds.
    simpl. destruct pc; congruence. }
  split; [exact (inv_cap _ _ _ HI)|]. split; [exact Hlen|].
  split; [lia|]. split; [lia|].
  intros i s' Hs. unfold step in Hs. destruct (crashed s); [discriminate|].
  destruct (calls s !! i) as [call|]; [|discriminate].
  destruct (c_pc call); try discriminate.
  destruct (select_ready s CaseSend) eqn:Hk; [|discriminate].
  injection Hs as <-. simpl in *. unfold Chan.send_buffer_ready in Hk.
  rewrite (inv_cap _ _ _ HI) in Hk. repeat split; lia.
Qed.

Lemma X1_witness :
  ∃ s, run_from 0%nat 2 (submit 0 quiet ++ submit 1 quiet ++ [EvTask 0; EvTask 1])
       = Some s
       ∧ count task_in_body (tasks s) = 2
       ∧ 0 ≤ Chan.len (work (pool s)) ≤ 2.
Proof.
  eexists. split; [vm_compute; reflexivity|]. split; [reflexivity|].
  match goal with
  | |- 0 ≤ Chan.len (work (pool ?s)) ≤ _ =>
      assert (Hr : reachable 0%nat 2 s)
        by (apply (run_from_reachable _ _
                     (submit 0 quiet ++ submit 1 quiet ++ [EvTask 0; EvTask 1]));
            vm_compute; reflexivity);
      exact (proj1 (proj2 (proj2 (X1_bounded_concurrency _ _ _ Hr))))
  end.
Defined.

(** X2: the deferred closure never blocks.  A goroutine that has reached
    [<-p.work] finds an element in the buffer, so it never waits for a
    sender and no send is ever completed by handing over to a receiver;
    every goroutine that has not ended can execute its next statement
    (for one inside its function, that is the function returning or
    panicking). *)
Theorem X2_goroutine_never_blocks (c : Ctx) (size : Z) (s : State) (j : nat)
    (t : Task)
    (Hr : reachable c size s) (Hlive : crashed s = false)
    (Ht : tasks s !! j = Some t) (Hpc : t_pc t ≠ TDone) :
  (∃ s', step (EvTask j) s = Some s')
  ∧ (t_pc t = TRecv → Chan.recv_buffer_ready (work (pool s)) = true)
  ∧ (∀ i j', step (EvHandoff i j') s = None).
Proof.
  pose proof (reachable_Inv _ _ _ Hr) as HI.
  pose proof (inv_len _ _ _ HI) as Hlen.
  pose proof (count_nonneg call_holds (calls s)) as H0.
  assert (Hready : ∀ j' t', tasks s !! j' = Some t' → t_pc t' = TRecv →
                     Chan.recv_buffer_ready (work (pool s)) = true).
  { intros j' t' Ht' Hpc'.
    assert (1 ≤ count task_holds (tasks s)).
    { apply (count_lookup_pos _ _ j' t' Ht'). unfold task_holds.
      rewrite Hpc'. reflexivity. }
    unfold Chan.recv_buffer_ready. lia. }
  split; [|split].
  - unfold step. rewrite Hlive, Ht. unfold task_next.
    destruct (t_pc t) eqn:E; try (eexists; reflexivity).
    + rewrite (Hready j t Ht E). eexists. reflexivity.
    + destruct (t_panicking t); eexists; reflexivity.
    + congruence.
  - exact (Hready j t Ht).
  - intros i j'. unfold step. rewrite Hlive.
    destruct (calls s !! i) as [call|]; [|reflexivity].
    destruct (tasks s !! j') as [t'|] eqn:Ht'; [|reflexivity].
    destruct (c_pc call); try reflexivity.
    destruct (t_pc t') eqn:E; try reflexivity.
    rewrite (Hready j' t' Ht' E). reflexivity.
Qed.

Lemma X2_witness :
  ∃ s, run_from 0%nat 1 (submit 0 quiet ++ replicate 3 (EvTask 0)) = Some s
       ∧ t_pc <$> tasks s = [TRecv]
       ∧ ∃ s', step (EvTask 0) s = Some s'.
Proof.
  eexists. split; [vm_compute; reflexivity|]. split; [reflexivity|].
  match goal with
  | |- ∃ s', step _ ?s = _ =>
      assert (Hr : reachable 0%nat 1 s)
        by (apply (run_from_reachable _ _
                     (submit 0 quiet ++ replicate 3 (EvTask 0)));
            vm_compute; reflexivity);
      refine (proj1 (X2_goroutine_never_blocks 0%nat 1 s 0%nat
                       (mkTask 0 quiet TRecv (Some (0%nat, 1)) false)
                       Hr eq_refl eq_refl _));
      discriminate
  end.
Defined.

(** ** Calls and their goroutines *)









(** ** Rejection *)

Lemma step_ctx_same (s s' : State) (e : event) :
  step e s = Some s' → ctx (pool s') = ctx (pool s).
Proof. intros Hs. step_cases Hs; reflexivity. Qed.

Lemma step_ctx_fired_mono (s s' : State) (e : event) (x : Ctx) :
  step e s = Some s' → ctx_fired s x = true → ctx_fired s' x = true.
Proof.
  intros Hs Hx. unfold ctx_fired in *.
  destruct e as [c0|f|i k|i j|i|j|];
    try (rewrite (step_fired _ _ _ Hs); [exact Hx | discriminate]).
  unfold step in Hs. destruct (crashed s); [discriminate|].
  injection Hs as <-. simpl.
  apply bool_decide_eq_true. apply bool_decide_eq_true in Hx.
  apply elem_of_cons. right. exact Hx.
Qed.

Lemma call_explained_mono (s s' : State) (e : event) (call : Call) :
  step e s = Some s' → call_explained s call → call_explained s' call.
Proof.
  intros Hs. unfold call_explained.
  rewrite (step_ctx_same _ _ _ Hs).
  destruct (c_pc call) as [| | | |[|]]; try exact id.
  - exact (step_ctx_fired_mono _ _ _ _ Hs).
  - exact (step_done_closed _ _ _ Hs).
Qed.

Lemma explained_step (c : Ctx) (size : Z) (s s' : State) (e : event) :
  Inv c size s → Forall (call_explained s) (calls s) → step e s = Some s' →
  Forall (call_explained s') (calls s').
Proof.
  intros HI H Hs.
  assert (Hmono : Forall (call_explained s') (calls s)).
  { eapply Forall_impl; [exact H|]. intros call. exact (call_explained_mono _ _ _ _ Hs). }
  destruct (call_closeDone_spec _ _ _ HI)
    as (Hd & _ & _ & _ & Hcalls & _).
  unfold step in Hs. destruct (crashed s); [discriminate|].
  destruct e as [c0|f|i k|i j|i|j|].
  - injection Hs as <-. exact Hmono.
  - injection Hs as <-. simpl in *. apply Forall_app. split; [exact Hmono|].
    repeat constructor.
  - destruct (calls s !! i) as [[fn pc]|] eqn:Hi; [|discriminate].
    simpl in Hs. destruct pc; try discriminate.
    destruct (select_ready s k) eqn:Hk; [|discriminate].
    injection Hs as <-.
    destruct k; simpl in *; (apply Forall_insert; [exact Hmono|]);
      unfold call_explained; simpl; first [exact Hk | exact I].
  - destruct (calls s !! i) as [[fn pc]|] eqn:Hi; [|discriminate].
    destruct (tasks s !! j) as [[tc tf tpc ta tp]|]; [|discriminate].
    simpl in Hs. destruct pc; try discriminate. destruct tpc; try discriminate.
    destruct (Chan.recv_buffer_ready (work (pool s))); [discriminate|].
    injection Hs as <-. simpl in *. apply Forall_insert; [exact Hmono|exact I].
  - destruct (calls s !! i) as [[fn pc]|] eqn:Hi; [|discriminate].
    unfold call_next in Hs. simpl in Hs.
    destruct pc; try discriminate; injection Hs as <-; simpl in *.
    + rewrite Hcalls in *. apply Forall_insert; [exact Hmono|].
      unfold call_explained. simpl. exact Hd.
    + apply Forall_insert; [exact Hmono|exact I].
    + apply Forall_insert; [exact Hmono|exact I].
  - destruct (tasks s !! j) as [[tc tf tpc ta tp]|]; [|discriminate].
    unfold task_next in Hs. simpl in Hs.
    destruct tpc; try discriminate.
    7: destruct tp.
    4: destruct (Chan.recv_buffer_ready (work (pool s))); [|discriminate].
    all: injection Hs as <-; exact Hmono.
  - injection Hs as <-. unfold Exit in *. rewrite Hcalls in *. exact Hmono.
Qed.

Lemma reachable_explained (c : Ctx) (size : Z) (s : State) :
  reachable c size s → Forall (call_explained s) (calls s).
Proof.
  revert s. apply reachable_ind.
  - intros p _. constructor.
  - intros s e s' Hr IH Hs.
    exact (explained_step _ _ _ _ _ (reachable_Inv _ _ _ Hr) IH Hs).
Qed.

(** X4: a call is rejected only by shutdown.  In every state, if some call
    has returned false then [done] is closed, and if some call has taken the
    cancellation case of its select then the context given to [New] has
    fired; so while the context has not fired and [done] is open, no call
    has returned false. *)
Theorem X4_false_only_after_shutdown (c : Ctx) (size : Z) (s : State) (i : nat)
    (call : Call)
    (Hr : reachable c size s) (Hi : calls s !! i = Some call) :
  (c_pc call = CRet false → Chan.closed (done (pool s)) = true)
  ∧ (c_pc call = CCloseDone → ctx_fired s c = true)
  ∧ (Chan.closed (done (pool s)) = false → c_pc call ≠ CRet false).
Proof.
  pose proof (Forall_lookup_1 _ _ _ _ (reachable_explained _ _ _ Hr) Hi) as H.
  unfold call_explained in H.
  rewrite (inv_ctx _ _ _ (reachable_Inv _ _ _ Hr)) in H.
  split; [|split].
  - intros E. rewrite E in H. exact H.
  - intros E. rewrite E in H. exact H.
  - intros Hd E. rewrite E in H. congruence.
Qed.

Lemma X4_witness :
  ∃ s, run_from 0%nat 1 (cancelled_then_called
                           ++ [EvSelect 0 CaseCtxDone; EvCaller 0]) = Some s
       ∧ c_pc <$> calls s = [CRet false]
       ∧ Chan.closed (done (pool s)) = true.
Proof.
  eexists. split; [vm_compute; reflexivity|]. split; [reflexivity|].
  match goal with
  | |- Chan.closed (done (pool ?s)) = true =>
      assert (Hr : reachable 0%nat 1 s)
        by (apply (run_from_reachable _ _
                     (cancelled_then_called
                        ++ [EvSelect 0 CaseCtxDone; EvCaller 0]));
            vm_compute; reflexivity);
      exact (proj1 (X4_false_only_after_shutdown 0%nat 1 s 0%nat
                      (mkCall quiet (CRet false)) Hr eq_refl) eq_refl)
  end.
Defined.

(** X5: who closes [done].  A transition that closes [done] is either a call
    of [Exit] or the [p.closeDone()] of a call that took the cancellation
    case of its select; cancelling the context does not close it by itself,
    and no goroutine of a task ever does. *)
Theorem X5_done_closed_by (s s' : State) (e : event)
    (Hs : step e s = Some s')
    (Hopen : Chan.closed (done (pool s)) = false)
    (Hclosed : Chan.closed (done (pool s')) = true) :
  e = EvExit
  ∨ ∃ i call, e = EvCaller i ∧ calls s !! i = Some call ∧ c_pc call = CCloseDone.
Proof.
  step_cases Hs; simpl in *; try congruence;
    first [ left; reflexivity | right; solve [eauto 10] ].
Qed.

Lemma X5_witness :
  ∃ s, run_from 0%nat 1 cancelled_then_called = Some s
       ∧ step EvExit s = Some (Exit s)
       ∧ Chan.closed (done (pool s)) = false
       ∧ Chan.closed (done (pool (Exit s))) = true
       ∧ (EvExit = EvExit
          ∨ ∃ i call, EvExit = EvCaller i ∧ calls s !! i = Some call
                      ∧ c_pc call = CCloseDone).
Proof.
  eexists. split; [vm_compute; reflexivity|].
  repeat (split; [reflexivity|]).
  match goal with
  | |- _ ∨ (∃ i call, _ ∧ calls ?s !! _ = _ ∧ _) =>
      exact (X5_done_closed_by s (Exit s) EvExit eq_refl eq_refl eq_refl)
  end.
Defined.

(** ** Blocking and release *)

Lemma handoff_never (c : Ctx) (size : Z) (s : State) (i j : nat) :
  reachable c size s → step (EvHandoff i j) s = None.
Proof.
  intros Hr. pose proof (reachable_Inv _ _ _ Hr) as HI.
  pose proof (inv_len _ _ _ HI) as Hlen.
  pose proof (count_nonneg call_holds (calls s)) as H0.
  unfold step. destruct (crashed s); [reflexivity|].
  destruct (calls s !! i) as [call|]; [|reflexivity].
  destruct (tasks s !! j) as [t|] eqn:Ht; [|reflexivity].
  destruct (c_pc call); try reflexivity.
  destruct (t_pc t) eqn:E; try reflexivity.
  assert (1 ≤ count task_holds (tasks s)).
  { apply (count_lookup_pos _ _ j t Ht). unfold task_holds. rewrite E. reflexivity. }
  unfold Chan.recv_buffer_ready.
  destruct (0 <? Chan.len (work (pool s))) eqn:Hl; [reflexivity|lia].
Qed.

(** X6: when a submission blocks.  A call at its select can take no case,
    and so waits, exactly when the context has not fired, [done] is open and
    all [size] slots are held. *)
Theorem X6_blocks_iff_full_and_open (c : Ctx) (size : Z) (s : State) (i : nat)
    (call : Call)
    (Hr : reachable c size s) (Hlive : crashed s = false)
    (Hi : calls s !! i = Some call) (Hpc : c_pc call = CSelect) :
  ((∀ k, step (EvSelect i k) s = None) ∧ (∀ j, step (EvHandoff i j) s = None))
  ↔ (ctx_fired s c = false
     ∧ Chan.closed (done (pool s)) = false
     ∧ Chan.len (work (pool s)) = size).
Proof.
  pose proof (reachable_Inv _ _ _ Hr) as HI.
  pose proof (inv_len_cap _ _ _ HI) as Hcap.
  assert (Hstep : ∀ k, step (EvSelect i k) s
                   = if select_ready s k
                     then Some (set_call (select_effect s k) i
                                         (at_pc call (select_target k)))
                     else None).
  { intros k. unfold step. rewrite Hlive, Hi, Hpc. reflexivity. }
  assert (Hnone : ∀ k, step (EvSelect i k) s = None ↔ select_ready s k = false).
  { intros k. rewrite Hstep. destruct (select_ready s k); split; congruence. }
  split.
  - intros [Hall _].
    pose proof (proj1 (Hnone CaseCtxDone) (Hall _)) as H1.
    pose proof (proj1 (Hnone CaseDone) (Hall _)) as H2.
    pose proof (proj1 (Hnone CaseSend) (Hall _)) as H3.
    simpl in *. rewrite (inv_ctx _ _ _ HI) in H1.
    unfold Chan.send_buffer_ready in H3. rewrite (inv_cap _ _ _ HI) in H3.
    repeat split; try assumption. lia.
  - intros (H1 & H2 & H3). split; [|intros j; exact (handoff_never _ _ _ _ _ Hr)].
    intros k. apply Hnone. destruct k; simpl.
    + rewrite (inv_ctx _ _ _ HI). exact H1.
    + exact H2.
    + unfold Chan.send_buffer_ready. rewrite (inv_cap _ _ _ HI). lia.
Qed.

Lemma X6_witness :
  ∃ s, run_from 0%nat 1 full_then_call = Some s
       ∧ Chan.len (work (pool s)) = 1
       ∧ ∀ k, step (EvSelect 1 k) s = None.
Proof.
  eexists. split; [vm_compute; reflexivity|]. split; [reflexivity|].
  match goal with
  | |- ∀ k, step _ ?s = None =>
      assert (Hr : reachable 0%nat 1 s)
        by (apply (run_from_reachable _ _ full_then_call); vm_compute; reflexivity);
      exact (proj1 (proj2 (X6_blocks_iff_full_and_open 0%nat 1 s 1%nat
                             (mkCall quiet CSelect) Hr eq_refl eq_refl eq_refl)
                      (conj eq_refl (conj eq_refl eq_refl))))
  end.
Defined.

(** X7: a finished task frees its slot for a waiting submission.  When a
    goroutine executes [<-p.work] the buffer loses exactly one element, and
    in the state after it the send case is ready: every call waiting at its
    select can now be admitted. *)
Theorem X7_release_admits (c : Ctx) (size : Z) (s s' : State) (j : nat) (t : Task)
    (Hr : reachable c size s)
    (Ht : tasks s !! j = Some t) (Hpc : t_pc t = TRecv)
    (Hs : step (EvTask j) s = Some s') :
  Chan.len (work (pool s')) = Chan.len (work (pool s)) - 1
  ∧ select_ready s' CaseSend = true
  ∧ (∀ i call, calls s' !! i = Some call → c_pc call = CSelect →
       ∃ s'', step (EvSelect i CaseSend) s' = Some s'').
Proof.
  pose proof (reachable_Inv _ _ _ Hr) as HI.
  pose proof (inv_len_cap _ _ _ HI) as Hcap.
  pose proof (inv_cap _ _ _ HI) as Hsz.
  unfold step in Hs. destruct (crashed s) eqn:Hlive; [discriminate|].
  rewrite Ht in Hs. unfold task_next in Hs. rewrite Hpc in Hs.
  destruct (Chan.recv_buffer_ready (work (pool s))); [|discriminate].
  injection Hs as <-. simpl.
  assert (Hready : Chan.send_buffer_ready (Chan.pop (work (pool s))) = true).
  { unfold Chan.send_buffer_ready, Chan.pop. simpl. lia. }
  split; [reflexivity|]. split; [exact Hready|].
  intros i call Hi Hc. unfold step. simpl. rewrite Hlive, Hi, Hc. simpl.
  rewrite Hready. eexists. reflexivity.
Qed.

Lemma X7_witness :
  ∃ s s', run_from 0%nat 1 (full_then_call ++ replicate 3 (EvTask 0)) = Some s
          ∧ select_ready s CaseSend = false
          ∧ step (EvTask 0) s = Some s'
          ∧ select_ready s' CaseSend = true.
Proof.
  do 2 eexists. split; [vm_compute; reflexivity|].
  match goal with
  | |- select_ready ?s _ = false ∧ _ =>
      assert (Hr : reachable 0%nat 1 s)
        by (apply (run_from_reachable _ _
                     (full_then_call ++ replicate 3 (EvTask 0)));
            vm_compute; reflexivity);
      split; [reflexivity|]; split; [vm_compute; reflexivity|];
      exact (proj1 (proj2 (X7_release_admits 0%nat 1 s _ 0%nat
                             (mkTask 0 quiet TRecv (Some (0%nat, 1)) false)
                             Hr eq_refl eq_refl eq_refl)))
  end.
Defined.

(** ** The counters together *)






(** ** Exit and the running tasks *)

(** X10: [Exit] does not touch the tasks.  It leaves the goroutines, the
    calls, the slots and the three counters as they are, and it does not
    change what a goroutine does next: a goroutine's statement executed
    after [Exit] gives the state that [Exit] gives after the statement, and
    a goroutine that can run before [Exit] can run after it. *)
Theorem X10_Exit_leaves_tasks (c : Ctx) (size : Z) (s : State) (j : nat)
    (Hr : reachable c size s) (Hlive : crashed s = false) :
  tasks (Exit s) = tasks s
  ∧ calls (Exit s) = calls s
  ∧ work (pool (Exit s)) = work (pool s)
  ∧ Running (Exit s) = Running s
  ∧ Worked (Exit s) = Worked s
  ∧ index (pool (Exit s)) = index (pool s)
  ∧ step (EvTask j) (Exit s) = Exit <$> step (EvTask j) s.
Proof.
  pose proof (reachable_Inv _ _ _ Hr) as HI.
  pose proof (inv_once _ _ _ HI) as Ho.
  destruct (call_closeDone_spec _ _ _ HI)
    as (_ & _ & _ & _ & Hcalls & Htasks & _ & _ & Hw & Hrun & Hwk & Hidx & _).
  repeat (split; [assumption|]).
  unfold Exit, step, call_closeDone, Chan.close. rewrite Hlive, Ho.
  destruct (Chan.closed (done (pool s))) eqn:Hd; simpl; rewrite ?Hlive.
  - destruct (tasks s !! j) as [t|]; [|reflexivity].
    unfold task_next. simpl.
    destruct (t_pc t); simpl; rewrite ?Ho, ?Hd, ?Hlive; try reflexivity.
    + destruct (Chan.recv_buffer_ready (work (pool s))); simpl;
        rewrite ?Ho, ?Hd, ?Hlive; reflexivity.
    + destruct (t_panicking t); simpl; rewrite ?Ho, ?Hd, ?Hlive; reflexivity.
  - destruct (tasks s !! j) as [t|]; [|reflexivity].
    unfold task_next. simpl.
    destruct (t_pc t); simpl; rewrite ?Ho, ?Hd, ?Hlive; try reflexivity.
    + destruct (Chan.recv_buffer_ready (work (pool s))); simpl;
        rewrite ?Ho, ?Hd, ?Hlive; reflexivity.
    + destruct (t_panicking t); simpl; rewrite ?Ho, ?Hd, ?Hlive; reflexivity.
Qed.

Lemma X10_witness :
  ∃ s, run_from 0%nat 1 (submit 0 quiet ++ [EvTask 0]) = Some s
       ∧ crashed s = false
       ∧ tasks (Exit s) = tasks s.
Proof.
  eexists. split; [vm_compute; reflexivity|]. split; [reflexivity|].
  match goal with
  | |- tasks (Exit ?s) = _ =>
      assert (Hr : reachable 0%nat 1 s)
        by (apply (run_from_reachable _ _ (submit 0 quiet ++ [EvTask 0]));
            vm_compute; reflexivity);
      exact (proj1 (X10_Exit_leaves_tasks 0%nat 1 s 0%nat Hr eq_refl))
  end.
Defined.

(** ** The three entry points *)




(** ** Running a task to its end *)

Lemma task_advance (c : Ctx) (size : Z) (s : State) (j : nat) (t : Task) :
  reachable c size s → crashed s = false → tasks s !! j = Some t →
  t_pc t ≠ TExit → t_pc t ≠ TDone →
  ∃ s' t', step (EvTask j) s = Some s'
           ∧ crashed s' = false
           ∧ tasks s' !! j = Some t'
           ∧ t_fn t' = t_fn t
           ∧ S (steps_left (t_pc t')) = steps_left (t_pc t).
Proof.
  intros Hr Hlive Ht Hne1 Hne2.
  pose proof (reachable_Inv _ _ _ Hr) as HI.
  pose proof (inv_len _ _ _ HI) as Hlen.
  pose proof (count_nonneg call_holds (calls s)) as H0.
  pose proof (lookup_lt_Some _ _ _ Ht) as Hlt.
  unfold step. rewrite Hlive, Ht. unfold task_next.
  destruct (t_pc t) eqn:E; try congruence.
  4: { assert (1 ≤ count task_holds (tasks s)).
       { apply (count_lookup_pos _ _ j t Ht). unfold task_holds.
         rewrite E. reflexivity. }
       assert (Hready : Chan.recv_buffer_ready (work (pool s)) = true)
         by (unfold Chan.recv_buffer_ready; lia).
       rewrite Hready. do 2 eexists. split; [reflexivity|]. simpl.
       split; [exact Hlive|]. split; [apply list_lookup_insert_eq; exact Hlt|].
       split; reflexivity. }
  all: do 2 eexists; (split; [reflexivity|]); simpl;
    (split; [exact Hlive|]); (split; [apply list_lookup_insert_eq; exact Hlt|]);
    split; reflexivity.
Qed.

Lemma task_exit (c : Ctx) (size : Z) (s : State) (j : nat) (t : Task) :
  reachable c size s → crashed s = false → tasks s !! j = Some t →
  t_pc t = TExit →
  ∃ s', step (EvTask j) s = Some s'
        ∧ crashed s' = fn_panics (t_fn t)
        ∧ (fn_panics (t_fn t) = false →
           ∃ t', tasks s' !! j = Some t' ∧ t_pc t' = TDone).
Proof.
  intros Hr Hlive Ht Hpc.
  pose proof (reachable_Inv _ _ _ Hr) as HI.
  pose proof (Forall_lookup_1 _ _ _ _ (inv_tasks _ _ _ HI) Ht) as Hok.
  unfold task_ok in Hok. rewrite Hpc in Hok. destruct Hok as [_ Hp].
  pose proof (lookup_lt_Some _ _ _ Ht) as Hlt.
  unfold step. rewrite Hlive, Ht. unfold task_next. rewrite Hpc, Hp.
  destruct (fn_panics (t_fn t)); eexists; (split; [reflexivity|]); simpl.
  - split; [reflexivity|]. discriminate.
  - split; [exact Hlive|]. intros _. eexists.
    split; [apply list_lookup_insert_eq; exact Hlt | reflexivity].
Qed.

(** X12: an accepted task runs to its end without waiting on the pool.
    From any state, a goroutine that has not ended can execute all the
    statements it has left, one after the other, whatever the other threads
    are doing (its function is taken to return or panic).  If the function
    does not panic the goroutine ends and the process lives; if it panics,
    the process ends with the goroutine's last statement. *)
Theorem X12_task_runs_to_end (c : Ctx) (size : Z) (s : State) (j : nat) (t : Task)
    (Hr : reachable c size s) (Hlive : crashed s = false)
    (Ht : tasks s !! j = Some t) (Hpc : t_pc t ≠ TDone) :
  ∃ s', run (replicate (steps_left (t_pc t)) (EvTask j)) s = Some s'
        ∧ crashed s' = fn_panics (t_fn t)
        ∧ (fn_panics (t_fn t) = false →
           ∃ t', tasks s' !! j = Some t' ∧ t_pc t' = TDone).
Proof.
  remember (steps_left (t_pc t)) as n eqn:Hn.
  revert s t Hr Hlive Ht Hpc Hn.
  induction n as [|n IH]; intros s t Hr Hlive Ht Hpc Hn.
  - destruct (t_pc t); simpl in Hn; congruence.
  - assert (Hdec : t_pc t = TExit ∨ t_pc t ≠ TExit)
      by (destruct (t_pc t); auto; right; discriminate).
    destruct Hdec as [He|He].
    + rewrite He in Hn. simpl in Hn. injection Hn as ->.
      destruct (task_exit _ _ _ _ _ Hr Hlive Ht He) as (s' & Hs & Hc & Hd).
      exists s'. simpl. rewrite Hs. auto.
    + destruct (task_advance _ _ _ _ _ Hr Hlive Ht He Hpc)
        as (s1 & t1 & Hs & Hl1 & Ht1 & Hf & Hleft).
      assert (Hn1 : n = steps_left (t_pc t1)) by lia.
      assert (Hpc1 : t_pc t1 ≠ TDone).
      { intros E. rewrite E in Hleft. simpl in Hleft.
        destruct (t_pc t); simpl in Hleft; try lia; congruence. }
      destruct (IH s1 t1 (reachable_step _ _ _ _ _ Hr Hs) Hl1 Ht1 Hpc1 Hn1)
        as (s' & Hrun & Hc & Hd).
      exists s'. simpl. rewrite Hs, <- Hf. auto.
Qed.

Lemma X12_witness :
  ∃ s s', run_from 0%nat 2 (submit 0 quiet ++ submit 1 faulty ++ [EvTask 1; EvTask 0])
          = Some s
          ∧ run (replicate 6 (EvTask 0)) s = Some s'
          ∧ crashed s' = false.
Proof.
  eexists.
  match goal with
  | |- ∃ s', run_from _ _ ?es = Some ?s ∧ _ =>
      assert (E : run_from 0%nat 2 es = Some s) by (vm_compute; reflexivity);
      pose proof (X12_task_runs_to_end 0%nat 2 s 0%nat
                    (mkTask 0 quiet TBody (Some (0%nat, 2)) false)
                    (run_from_reachable _ _ _ _ E) eq_refl eq_refl
                    ltac:(discriminate))
        as (s' & Hrun & Hc & _);
      exists s'; split; [exact E|]; split; [exact Hrun | exact Hc]
  end.
Defined.

(** ** Shutdown and waiting submissions *)

Lemma run_two (e1 e2 : event) (s s1 s2 : State) :
  step e1 s = Some s1 → step e2 s1 = Some s2 → run [e1; e2] s = Some s2.
Proof. intros H1 H2. simpl. rewrite H1, H2. reflexivity. Qed.

Lemma run_three (e1 e2 e3 : event) (s s1 s2 s3 : State) :
  step e1 s = Some s1 → step e2 s1 = Some s2 → step e3 s2 = Some s3 →
  run [e1; e2; e3] s = Some s3.
Proof. intros H1 H2 H3. simpl. rewrite H1, H2, H3. reflexivity. Qed.

(** X13: shutdown wakes a waiting submission.  Whatever the state, a call
    waiting at its select can return false right after [Exit], by the case
    [<-p.done], and after the context of [New] is cancelled, by the case
    [<-p.ctx.Done()] and [p.closeDone()]; either way the goroutines, the
    slots and the counters are left as they were. *)
Theorem X13_shutdown_wakes (c : Ctx) (size : Z) (s : State) (i : nat) (call : Call)
    (Hr : reachable c size s) (Hlive : crashed s = false)
    (Hi : calls s !! i = Some call) (Hpc : c_pc call = CSelect) :
  (∃ s', run [EvExit; EvSelect i CaseDone] s = Some s'
         ∧ calls s' !! i = Some (at_pc call (CRet false))
         ∧ tasks s' = tasks s
         ∧ work (pool s') = work (pool s)
         ∧ Running s' = Running s ∧ Worked s' = Worked s)
  ∧ (∃ s', run [EvCancel c; EvSelect i CaseCtxDone; EvCaller i] s = Some s'
           ∧ calls s' !! i = Some (at_pc call (CRet false))
           ∧ Chan.closed (done (pool s')) = true
           ∧ tasks s' = tasks s
           ∧ work (pool s') = work (pool s)
           ∧ Running s' = Running s ∧ Worked s' = Worked s).
Proof.
  pose proof (reachable_Inv _ _ _ Hr) as HI.
  pose proof (lookup_lt_Some _ _ _ Hi) as Hlt.
  destruct (call_closeDone_spec _ _ _ HI)
    as (Hd & _ & _ & Hcr & Hcalls & Htasks & _ & _ & Hw & Hrun & Hwk & _).
  split.
  - exists (set_call (Exit s) i (at_pc call (CRet false))). split.
    + apply (run_two _ _ _ (Exit s)).
      * unfold step. rewrite Hlive. reflexivity.
      * unfold step, Exit. rewrite Hcr, Hlive, Hcalls, Hi, Hpc. simpl.
        unfold Chan.recv_closed_ready. rewrite Hd. reflexivity.
    + unfold Exit, Running, Worked. simpl. rewrite Hcalls.
      repeat split; try assumption.
      apply list_lookup_insert_eq. exact Hlt.
  - set (s1 := mkState (pool s) (c :: fired s) (calls s) (tasks s) false
                       (closes s)).
    assert (Hs1 : step (EvCancel c) s = Some s1)
      by (unfold step; rewrite Hlive; reflexivity).
    set (s2 := set_call s1 i (at_pc call CCloseDone)).
    assert (Hs2 : step (EvSelect i CaseCtxDone) s1 = Some s2).
    { unfold step. simpl. rewrite Hi, Hpc. simpl.
      unfold ctx_fired. simpl. rewrite (inv_ctx _ _ _ HI).
      rewrite bool_decide_eq_true_2 by (apply elem_of_cons; left; reflexivity).
      reflexivity. }
    pose proof (reachable_step _ _ _ _ _ (reachable_step _ _ _ _ _ Hr Hs1) Hs2) as Hr2.
    destruct (call_closeDone_spec _ _ _ (reachable_Inv _ _ _ Hr2))
      as (Hd2 & _ & _ & Hcr2 & Hcalls2 & Htasks2 & _ & _ & Hw2 & Hrun2 & Hwk2 & _).
    exists (set_call (call_closeDone s2) i (at_pc call (CRet false))). split.
    + apply (run_three _ _ _ _ s1 s2); [exact Hs1 | exact Hs2 |].
      unfold step. simpl.
      rewrite list_lookup_insert_eq by exact Hlt. reflexivity.
    + unfold Running, Worked. simpl. rewrite Hcalls2, Htasks2, Hw2, Hrun2, Hwk2.
      simpl. repeat split; try assumption.
      apply list_lookup_insert_eq. rewrite length_insert. exact Hlt.
Qed.

Lemma X13_witness :
  ∃ s s', run_from 0%nat 1 full_then_call = Some s
          ∧ (∀ k, step (EvSelect 1 k) s = None)
          ∧ run [EvExit; EvSelect 1 CaseDone] s = Some s'
          ∧ calls s' !! 1%nat = Some (mkCall quiet (CRet false)).
Proof.
  eexists.
  match goal with
  | |- ∃ s', run_from _ _ ?es = Some ?s ∧ _ =>
      assert (E : run_from 0%nat 1 es = Some s) by (vm_compute; reflexivity);
      destruct (X13_shutdown_wakes 0%nat 1 s 1%nat (mkCall quiet CSelect)
                  (run_from_reachable _ _ _ _ E) eq_refl eq_refl eq_refl)
        as [(s' & Hrun & Hc & _) _];
      exists s'; split; [exact E|]; split; [intros [| |]; reflexivity|];
      split; [exact Hrun | exact Hc]
  end.
Defined.
